(** * Ornithokrites: recordings_io.py

    A shallow embedding of the module that reads, rescales and writes wave
    files and walks a directory tree for recordings, together with the
    properties its specification states about it.

    Numbers.  numpy's floating-point samples are modelled by [float]: a
    finite value is an exact rational (rounding is not modelled, results are
    kept in lowest terms, and the two precisions float32 and float64 are one
    type), and the IEEE special values that a division by zero produces
    (infinities and NaN) are kept, because numpy's array arithmetic never
    raises on them.  Signed zeros and overflow are not modelled.  The power
    [10 ** x] is a parameter of [write], taken to be defined everywhere.
    Where a property depends on the rounding of the code, it is stated for
    every value within a relative error of the exact one.

    Objects.  numpy arrays are mutable and are passed by reference: they live
    in a heap, indexed by locations, and the in-place operators [/=] and [*=]
    update the array they are applied to.  A location is a whole buffer:
    arrays that are views of one buffer are not told apart.  The arrays given
    to [write] hold floats, as those that [read] returns.  The list of a
    walker is a Python list, handed out by reference.

    Files.  The file system seen by [read] and [write] is a set of
    directories and a map from paths to wave files: every file is a wave
    file that decodes, the codec is not modelled, and creating a directory
    or writing a file always succeeds.  The file system seen by [Walker] is
    a tree of regular files and directories. *)

From Stdlib Require Import ZArith QArith Qabs Lia Lqa String Ascii.
From stdpp Require Import gmap strings list fin_maps.

Open Scope Z_scope.

(** ** Floating-point values *)

Inductive float : Type :=
  | Fin (q : Q)
  | Inf (negative : bool)
  | NaN.

(** Numerical equality (finite values are compared as rationals). *)
Definition feq (a b : float) : Prop :=
  match a, b with
  | Fin x, Fin y => (x == y)%Q
  | Inf s, Inf t => s = t
  | NaN, NaN => True
  | _, _ => False
  end.

Definition is_finite (a : float) : Prop :=
  match a with Fin _ => True | _ => False end.

Definition Qzero (q : Q) : bool := (Qnum q =? 0)%Z.
Definition Qneg (q : Q) : bool := (Qnum q <? 0)%Z.

(** [np.abs] on one element. *)
Definition fabs (a : float) : float :=
  match a with
  | Fin q => Fin (Qabs q)
  | Inf _ => Inf false
  | NaN => NaN
  end.

(** Element-wise true division, as numpy performs it: a zero divisor yields
    NaN or an infinity (with a warning), never an exception. *)
Definition fdiv (a b : float) : float :=
  match a, b with
  | NaN, _ | _, NaN => NaN
  | Inf _, Inf _ => NaN
  | Inf s, Fin y => Inf (xorb s (Qneg y))
  | Fin _, Inf _ => Fin 0
  | Fin x, Fin y =>
      if Qzero y then (if Qzero x then NaN else Inf (Qneg x))
      else Fin (Qred (x / y))
  end.

Definition fmul (a b : float) : float :=
  match a, b with
  | NaN, _ | _, NaN => NaN
  | Inf s, Inf t => Inf (xorb s t)
  | Inf s, Fin y => if Qzero y then NaN else Inf (xorb s (Qneg y))
  | Fin x, Inf t => if Qzero x then NaN else Inf (xorb (Qneg x) t)
  | Fin x, Fin y => Fin (Qred (x * y))
  end.

(** [np.maximum]: the larger of two values; NaN propagates. *)
Definition fmaximum (a b : float) : float :=
  match a, b with
  | NaN, _ | _, NaN => NaN
  | Inf false, _ | _, Inf false => Inf false
  | Inf true, y => y
  | x, Inf true => x
  | Fin x, Fin y => if Qle_bool x y then Fin y else Fin x
  end.

(** [np.max] of a one-dimensional array; [None] stands for the ValueError
    numpy raises on a zero-size array. *)
Definition np_max (a : list float) : option float :=
  match a with
  | [] => None
  | x :: xs => Some (fold_left fmaximum xs x)
  end.

Definition np_abs (a : list float) : list float := map fabs a.

(** [astype('float32')] of decoded integer samples. *)
Definition astype_float32 (raw : list Z) : list float :=
  map (fun z => Fin (inject_Z z)) raw.

(** Truncation toward zero of a rational. *)
Definition trunc (q : Q) : Z := Z.quot (Qnum q) (Z.pos (Qden q)).

(** Narrowing of an integer to 16 bits, two's complement. *)
Definition wrap16 (z : Z) : Z :=
  let u := Z.land z 65535 in
  if Z.testbit u 15 then u - 65536 else u.

(** The range of a signed 32-bit integer. *)
Definition fits_int32 (z : Z) : bool :=
  (-2147483648 <=? z) && (z <=? 2147483647).

(** [astype('int16')] on one element: numpy's cast is the conversion of the
    machine, which drops the fraction toward zero, makes a 32-bit integer of
    the integer part and keeps its low 16 bits.  When the integer part does
    not fit 32 bits, or the value is not finite, the conversion yields the
    integer indefinite value 0x80000000, whose low 16 bits are 0. *)
Definition astype_int16 (a : float) : Z :=
  match a with
  | Fin q => if fits_int32 (trunc q) then wrap16 (trunc q) else 0
  | _ => 0
  end.

(** ** Python slices on one-dimensional arrays *)

Section Slices.
Context {A : Type}.

Definition len (a : list A) : Z := Z.of_nat (length a).

(** Resolution of one slice bound against a length [n] (step 1). *)
Definition adjust (i n : Z) : Z :=
  if i <? 0 then (if i + n <? 0 then 0 else i + n)
  else if n <=? i then n else i.

(** [a[start:stop]] *)
Definition getslice (a : list A) (start stop : Z) : list A :=
  let lo := adjust start (len a) in
  let hi := adjust stop (len a) in
  take (Z.to_nat (hi - lo)) (drop (Z.to_nat lo) a).

(** [a[start:stop] = src]: the source must have the length of the
    destination slice, or length 1 (it is then broadcast); [None] stands
    for numpy's ValueError (could not broadcast). *)
Definition setslice (a : list A) (start stop : Z) (src : list A)
  : option (list A) :=
  let lo := adjust start (len a) in
  let hi := adjust stop (len a) in
  let d := Z.to_nat (hi - lo) in
  if (length src =? d)%nat then
    Some (take (Z.to_nat lo) a ++ src ++ drop (Z.to_nat lo + d) a)
  else
    match src with
    | [x] => Some (take (Z.to_nat lo) a ++ replicate d x
                     ++ drop (Z.to_nat lo + d) a)
    | _ => None
    end.
End Slices.

(** ** Paths *)

Fixpoint endswith (s suffix : string) : bool :=
  if String.eqb s suffix then true
  else match s with
       | EmptyString => false
       | String _ s' => endswith s' suffix
       end.

Fixpoint has_slash (p : string) : bool :=
  match p with
  | EmptyString => false
  | String c p' => Ascii.eqb c "/" || has_slash p'
  end.

(** [os.path.basename]: what follows the last slash. *)
Fixpoint os_path_basename (p : string) : string :=
  match p with
  | EmptyString => EmptyString
  | String c p' =>
      if has_slash p' then os_path_basename p'
      else if Ascii.eqb c "/" then p' else p
  end.

(** [os.path.join] of two components. *)
Definition os_path_join (a b : string) : string :=
  if String.prefix "/" b then b
  else if String.eqb a "" || endswith a "/" then a ++ b
  else a ++ "/" ++ b.

(** ** Exceptions, heap and file system *)

(** [ValueError], [IOError] and [TypeError] are what the code and its
    libraries raise.  [DegenerateSignalError] and [InvalidSegmentError] are
    the error kinds the specification names. *)
Inductive exn : Type :=
  | ValueError
  | IOError
  | TypeError
  | DegenerateSignalError
  | InvalidSegmentError.

(** Locations of arrays in the heap. *)
Abbreviation loc := nat.

(** What a wave file holds: a sample rate and integer samples. *)
Record wavfile : Type := Wav { wav_rate : Z; wav_data : list Z }.

(** The arrays in memory, the directories and the wave files on disk. *)
Record world : Type := World {
  heap : gmap nat (list float);
  dirs : gset string;
  files : gmap string wavfile
}.

(** Computations that may raise and that act on the world. *)
Definition M (A : Type) : Type := world -> (exn + A) * world.

Definition ret {A} (a : A) : M A := fun w => (inr a, w).
Definition raise {A} (e : exn) : M A := fun w => (inl e, w).
Definition bind {A B} (m : M A) (k : A -> M B) : M B :=
  fun w => match m w with
           | (inl e, w') => (inl e, w')
           | (inr a, w') => k a w'
           end.

Notation "x <- m ;; k" := (bind m (fun x => k))
  (at level 100, m at next level, right associativity).
Notation "m ;;; k" := (bind m (fun _ => k))
  (at level 100, right associativity).

Definition lift_opt {A} (e : exn) (o : option A) : M A :=
  match o with Some a => ret a | None => raise e end.

(** A fresh array. *)
Definition alloc (a : list float) : M loc :=
  fun w => let l := fresh (dom (heap w)) in
           (inr l, World (<[l := a]> (heap w)) (dirs w) (files w)).

(** The content of an array; what is not an array raises [TypeError]. *)
Definition load (l : loc) : M (list float) :=
  fun w => lift_opt TypeError (heap w !! l) w.

(** In-place update of an array. *)
Definition store (l : loc) (a : list float) : M unit :=
  fun w => (inr tt, World (<[l := a]> (heap w)) (dirs w) (files w)).

(** [os.path.exists] and [os.makedirs] (parent directories are not
    tracked, and the creation is not modelled to fail). *)
Definition os_path_exists (p : string) : M bool :=
  fun w => (inr (bool_decide (p ∈ dirs w) || bool_decide (is_Some (files w !! p))), w).

Definition os_makedirs (p : string) : M unit :=
  fun w => (inr tt, World (heap w) ({[ p ]} ∪ dirs w) (files w)).

(** [scipy.io.wavfile.read] and [write].  A path at which no wave file
    lies is a missing file; a file that exists and does not decode is not
    modelled. *)
Definition wav_read (p : string) : M wavfile :=
  fun w => lift_opt IOError (files w !! p) w.

Definition wav_write (p : string) (rate : Z) (data : list Z) : M unit :=
  fun w => (inr tt, World (heap w) (dirs w) (<[p := Wav rate data]> (files w))).

(** ** read *)

(** Lines 16-21.  [astype] makes a new array, which [/=] then divides in
    place by its largest absolute value. *)
Definition read (path : string) : M (Z * loc) :=
  f <- wav_read path ;;
  sample <- alloc (astype_float32 (wav_data f)) ;;
  a <- load sample ;;
  peak <- lift_opt ValueError (np_max (np_abs a)) ;;
  store sample (map (fun x => fdiv x peak) a) ;;;
  ret (wav_rate f, sample).

(** ** write *)

Section Write.

(** [10 ** x] on floats. *)
Variable pow10 : Q -> Q.

(** [np.zeros(n)]: a negative dimension raises [ValueError]. *)
Definition np_zeros (n : Z) : M loc :=
  if n <? 0 then raise ValueError
  else alloc (replicate (Z.to_nat n) (Fin 0)).

(** The loop of lines 54-57: [new_sample[idx:idx+length] = sample[start:end]]. *)
Fixpoint copy_segments (sample new_sample : loc) (segments : list (Z * Z))
    (idx : Z) : M unit :=
  match segments with
  | [] => ret tt
  | (start, end_) :: rest =>
      let length := end_ - start in
      src <- load sample ;;
      dst <- load new_sample ;;
      dst' <- lift_opt ValueError
                (setslice dst idx (idx + length) (getslice src start end_)) ;;
      store new_sample dst' ;;;
      copy_segments sample new_sample rest (idx + length)
  end.

(** Lines 50-58: the array the rest of [write] works on. *)
Definition extract (sample : loc) (segments : list (Z * Z)) : M loc :=
  match segments with
  | [] => ret sample
  | _ :: _ =>
      let total_length :=
        fold_left Z.add (map (fun se => snd se - fst se) segments) 0 in
      new_sample <- np_zeros total_length ;;
      copy_segments sample new_sample segments 0 ;;;
      ret new_sample
  end.

(** Lines 60-64: the path the file is written to. *)
Definition output_path (path output_dir : string) : M string :=
  if String.eqb output_dir "" then ret path
  else
    present <- os_path_exists output_dir ;;
    (if present then ret tt else os_makedirs output_dir) ;;;
    ret (os_path_join output_dir (os_path_basename path)).

(** Lines 66-68: in-place scaling by [10**(dB/10) / max]. *)
Definition scale (sample : loc) (dB : Q) : M unit :=
  a <- load sample ;;
  max_sample <- lift_opt ValueError (np_max a) ;;
  let desired_dB_log := Fin (pow10 (dB / 10)) in
  store sample (map (fun x => fmul x (fdiv desired_dB_log max_sample)) a).

(** Lines 24-70. *)
Definition write (path : string) (rate : Z) (sample : loc) (dB : Q)
    (output_dir : string) (segments : list (Z * Z)) : M unit :=
  sample <- extract sample segments ;;
  path <- output_path path output_dir ;;
  scale sample dB ;;;
  a <- load sample ;;
  wav_write path rate (map astype_int16 a).

End Write.

(** A power function that is exact on integral exponents (and only meant
    for them): it instantiates [pow10] in closed examples. *)
Definition pow10_int (x : Q) : Q := (10 ^ trunc x)%Q.

(** ** Walker *)

(** What the walker sees of the file system: regular files and directories,
    a directory listing its entries in [os.listdir] order. *)
#[warnings="-register-all"]
Inductive node : Type :=
  | File
  | Dir (entries : list (string * node)).

Definition is_dir (n : node) : bool :=
  match n with Dir _ => true | File => false end.

Definition filenames (entries : list (string * node)) : list string :=
  map fst (List.filter (fun e => negb (is_dir (snd e))) entries).

Definition dirnames (entries : list (string * node)) : list string :=
  map fst (List.filter (fun e => is_dir (snd e)) entries).

(** [os.walk(top)], top-down: one triple per directory; a [top] that is not a
    directory yields nothing. *)
Fixpoint walk (top : string) (n : node)
    : list (string * list string * list string) :=
  match n with
  | File => []
  | Dir entries =>
      (top, dirnames entries, filenames entries) ::
      (fix walk_dirs (l : list (string * node)) :=
         match l with
         | [] => []
         | (name, child) :: l' =>
             (if is_dir child then walk (os_path_join top name) child else [])
               ++ walk_dirs l'
         end) entries
  end.

Module Walker.

(** The object: its only attribute is the list of recordings. *)
Record t : Type := Make { _recordings : list string }.

Section Fs.
(** What lies at a path, if anything. *)
Variable fs : string -> option node.

(** [os.path.isfile] and [os.walk]. *)
Definition isfile (p : string) : bool :=
  match fs p with Some File => true | _ => false end.

Definition os_walk (p : string) : list (string * list string * list string) :=
  match fs p with Some n => walk p n | None => [] end.

(** Lines 76-88. *)
Definition init (recordings_location : string) : t :=
  let r0 :=
    if isfile recordings_location && endswith recordings_location ".wav"
    then [recordings_location] else [] in
  let r1 :=
    flat_map
      (fun triple : string * list string * list string =>
         let '(dirpath, _, names) := triple in
         map (os_path_join dirpath)
             (List.filter (fun f => endswith f ".wav") names))
      (os_walk recordings_location) in
  Make (r0 ++ r1).
End Fs.

(** A reference to a Python list object.  The only list object here is the
    one the walker holds in [_recordings]. *)
Inductive listref : Type := RecordingsOfSelf.

(** What the list behind a reference holds at the moment it is read. *)
Definition deref (r : listref) (self : t) : list string :=
  match r with RecordingsOfSelf => _recordings self end.

(** [r.append(x)], by a client that holds the reference. *)
Definition list_append (r : listref) (x : string) (self : t) : t :=
  match r with RecordingsOfSelf => Make (_recordings self ++ [x]) end.

(** Lines 115-121.  Methods return their result and the object as they
    leave it.  Line 117 returns the list object itself, not a copy. *)
Definition get_recordings_list (self : t) : listref * t :=
  (RecordingsOfSelf, self).

Definition count (self : t) : Z * t :=
  (Z.of_nat (length (_recordings self)), self).

(** One step of the generator [read_wave], whose state is a position in
    [_recordings]; [None] is its exhaustion. *)
Definition read_wave_next (self : t) (pos : nat)
    : M (option (Z * list Z * string) * nat * t) :=
  match _recordings self !! pos with
  | None => ret (None, pos, self)
  | Some name =>
      f <- wav_read name ;;
      ret (Some (wav_rate f, wav_data f, name), S pos, self)
  end.

(** What a client can do with a walker: call its methods, advance a
    generator, and append to the list that [get_recordings_list] gave it.
    The answer to [CallList] is what the client reads in the list it is
    given. *)
Inductive call : Type :=
  | CallList
  | CallCount
  | CallNext (pos : nat)
  | ClientAppend (x : string).

Inductive answer : Type :=
  | AList (l : list string)
  | ACount (n : Z)
  | ANext (r : option (Z * list Z * string)) (pos : nat)
  | ARaised (e : exn)
  | ADone.

Definition perform (c : call) (self : t) (w : world) : answer * t * world :=
  match c with
  | CallList =>
      let '(r, self') := get_recordings_list self in (AList (deref r self'), self', w)
  | CallCount => let '(n, self') := count self in (ACount n, self', w)
  | CallNext pos =>
      match read_wave_next self pos w with
      | (inl e, w') => (ARaised e, self, w')
      | (inr (r, pos', self'), w') => (ANext r pos', self', w')
      end
  | ClientAppend x =>
      let '(r, self') := get_recordings_list self in
      (ADone, list_append r x self', w)
  end.

(** The calls that are methods of the walker. *)
Definition is_method (c : call) : bool :=
  match c with ClientAppend _ => false | _ => true end.

(** What the client appended, in order. *)
Definition appended (cs : list call) : list string :=
  flat_map (fun c => match c with ClientAppend x => [x] | _ => [] end) cs.

Fixpoint perform_all (cs : list call) (self : t) (w : world) : t * world :=
  match cs with
  | [] => (self, w)
  | c :: cs' =>
      let '(_, self', w') := perform c self w in perform_all cs' self' w'
  end.

End Walker.

(** ** Notions the specification uses *)

(** The global peak absolute value of decoded samples. *)
Definition peakZ (raw : list Z) : Z := foldr Z.max 0 (map Z.abs raw).

(** The total length of a list of segments. *)
Definition total_length (segments : list (Z * Z)) : Z :=
  fold_left Z.add (map (fun se => snd se - fst se) segments) 0.

(** A segment that lies within a buffer of length [n]. *)
Definition valid_segment (n : Z) (se : Z * Z) : Prop :=
  0 <= fst se /\ fst se <= snd se /\ snd se <= n.

(** ** Worlds and arrays used in the examples *)

(** One array, [[1.0; 0.5]], at location 0; an empty file system. *)
Definition w_two : world :=
  World (<[0%nat := [Fin 1; Fin (1 # 2)]]> ∅) ∅ ∅.

(** A wave file of two silent samples. *)
Definition w_silent : world :=
  World ∅ ∅ (<["silence.wav"%string := Wav 8000 [0; 0]]> ∅).

(** A wave file with samples 3, -4, 2. *)
Definition w_file : world :=
  World ∅ ∅ (<["a.wav"%string := Wav 8000 [3; -4; 2]]> ∅).

(** One array of eight samples, 0.0 to 7.0, at location 0. *)
Definition b_eight : list float :=
  astype_float32 [0; 1; 2; 3; 4; 5; 6; 7].

Definition w_eight : world := World (<[0%nat := b_eight]> ∅) ∅ ∅.

(** One array of three samples at location 0. *)
Definition b_three : list float := [Fin 1; Fin (1 # 2); Fin (1 # 4)].

Definition w_three : world := World (<[0%nat := b_three]> ∅) ∅ ∅.

(** One array of two zero samples at location 0. *)
Definition w_zero : world :=
  World (<[0%nat := [Fin 0; Fin 0]]> ∅) ∅ ∅.

(** ** Effects of a computation *)

(** The exceptions [m] can raise all satisfy [P]. *)
Definition raises_in {A} (P : exn -> Prop) (m : M A) : Prop :=
  forall w e, fst (m w) = inl e -> P e.

(** [m] leaves the file system as it is, whether it returns or raises. *)
Definition keeps_fs {A} (m : M A) : Prop :=
  forall w, dirs (snd (m w)) = dirs w /\ files (snd (m w)) = files w.

(** [m] writes no file. *)
Definition keeps_files {A} (m : M A) : Prop :=
  forall w, files (snd (m w)) = files w.

(** [m] leaves the array at [l] as it is. *)
Definition keeps_loc {A} (l : loc) (m : M A) : Prop :=
  forall w, heap (snd (m w)) !! l = heap w !! l.

(** ** Files of a directory tree *)

(** [file_in top n dirpath name]: the tree [n], found at path [top], has a
    regular file called [name] in its directory of path [dirpath]. *)
Inductive file_in : string -> node -> string -> string -> Prop :=
  | file_here (top : string) (entries : list (string * node)) (name : string) :
      In (name, File) entries ->
      file_in top (Dir entries) top name
  | file_below (top : string) (entries : list (string * node)) (d : string)
      (child : node) (dirpath name : string) :
      In (d, child) entries ->
      file_in (os_path_join top d) child dirpath name ->
      file_in top (Dir entries) dirpath name.

(** The recordings a list of [os.walk] triples contributes (lines 86-88). *)
Definition wav_paths (triples : list (string * list string * list string))
    : list string :=
  flat_map
    (fun triple : string * list string * list string =>
       let '(dirpath, _, names) := triple in
       map (os_path_join dirpath)
           (List.filter (fun f => endswith f ".wav") names))
    triples.

(** The directory of the specification's example, with one file whose
    extension is in upper case. *)
Definition example_tree : node :=
  Dir [("a.wav"%string, File);
       ("sub"%string, Dir [("b.wav"%string, File); ("d.WAV"%string, File)]);
       ("c.txt"%string, File)].

Definition example_fs (p : string) : option node :=
  if String.eqb p "rec" then Some example_tree
  else if String.eqb p "one.wav" then Some File
  else if String.eqb p "notes.txt" then Some File
  else None.

(** ** More of the walker *)

(** The number of regular files of a tree whose name ends with [.wav]. *)
Fixpoint count_wav (n : node) : nat :=
  match n with
  | File => 0
  | Dir entries =>
      length (List.filter (fun f => endswith f ".wav") (filenames entries))
      + (fix below (l : list (string * node)) : nat :=
           match l with
           | [] => 0
           | (_, child) :: l' => count_wav child + below l'
           end) entries
  end%nat.

(** A [for] loop over the generator [read_wave] (lines 111-113): it asks
    for the next item until the generator is exhausted and gathers what was
    yielded; an exception raised by the generator ends the loop.  [fuel]
    bounds the number of requests, and [None] tells that it ran out. *)
Fixpoint read_wave (fuel : nat) (self : Walker.t) (pos : nat)
    : M (option (list (Z * list Z * string))) :=
  match fuel with
  | O => ret None
  | S fuel' =>
      r <- Walker.read_wave_next self pos ;;
      match r with
      | (None, _, _) => ret (Some [])
      | (Some item, pos', self') =>
          rest <- read_wave fuel' self' pos' ;;
          ret (option_map (cons item) rest)
      end
  end.

(** A file system in which the specification's directory and its
    subdirectory are both found, with the wave files of the directory. *)
Definition example_fs_deep (p : string) : option node :=
  if String.eqb p "rec" then Some example_tree
  else if String.eqb p "rec/sub" then
    Some (Dir [("b.wav"%string, File); ("d.WAV"%string, File)])
  else if String.eqb p "rec/a.wav" then Some File
  else if String.eqb p "rec/c.txt" then Some File
  else None.

Definition w_recordings : world :=
  World ∅ ∅
    (<["rec/a.wav"%string := Wav 8000 [3; -4; 2]]>
       (<["rec/sub/b.wav"%string := Wav 44100 [0; 7]]> ∅)).

(** One array without any sample at location 0. *)
Definition w_empty : world := World (<[0%nat := []]> ∅) ∅ ∅.

(** A walker whose only entry is [a.wav]. *)
Definition walker_one : Walker.t := Walker.Make ["a.wav"%string].


(** * Properties *)

(** ** The monad *)

Lemma bind_inr {A B} (m : M A) (k : A -> M B) w a w' :
  m w = (inr a, w') -> bind m k w = k a w'.
Proof. intros H. unfold bind. now rewrite H. Qed.

Lemma bind_inl {A B} (m : M A) (k : A -> M B) w e w' :
  m w = (inl e, w') -> bind m k w = (inl e, w').
Proof. intros H. unfold bind. now rewrite H. Qed.

(** ** np.max on finite samples *)

Lemma fold_fmaximum_fin xs : forall x,
  Forall is_finite xs ->
  exists m, fold_left fmaximum xs (Fin x) = Fin m
    /\ (m = x \/ In (Fin m) xs)
    /\ (x <= m)%Q
    /\ (forall y, In (Fin y) xs -> (y <= m)%Q).
Proof.
  induction xs as [|a xs IH]; intros x Hfin.
  - exists x. simpl. repeat split; auto. apply Qle_refl. intros y [].
  - inversion Hfin as [|? ? Ha Hxs]; subst. destruct a as [q| |]; try contradiction.
    simpl. destruct (Qle_bool x q) eqn:E.
    + apply Qle_bool_iff in E.
      destruct (IH q Hxs) as (m & Hm & Hin & Hle & Hall).
      exists m. repeat split; auto.
      * right. destruct Hin as [->|Hin]; [now left | now right].
      * eapply Qle_trans; eauto.
      * intros y [Hy|Hy]; [injection Hy as ->; auto | auto].
    + assert (q <= x)%Q as Hqx.
      { destruct (Qlt_le_dec x q) as [Hlt|Hle]; auto.
        apply Qlt_le_weak, Qle_bool_iff in Hlt. congruence. }
      destruct (IH x Hxs) as (m & Hm & Hin & Hle & Hall).
      exists m. repeat split; auto.
      * destruct Hin as [->|Hin]; [now left | right; now right].
      * intros y [Hy|Hy]; [injection Hy as ->; eapply Qle_trans; eauto | auto].
Qed.

Lemma np_max_fin (a : list float) :
  a <> [] -> Forall is_finite a ->
  exists m, np_max a = Some (Fin m) /\ In (Fin m) a
    /\ (forall y, In (Fin y) a -> (y <= m)%Q).
Proof.
  destruct a as [|x xs]; [congruence|]. intros _ Hfin.
  inversion Hfin as [|? ? Hx Hxs]; subst. destruct x as [q| |]; try contradiction.
  destruct (fold_fmaximum_fin xs q Hxs) as (m & Hm & Hin & Hle & Hall).
  exists m. simpl. rewrite Hm. repeat split; auto.
  - destruct Hin as [->|Hin]; [now left | now right].
  - intros y [Hy|Hy]; [injection Hy as ->; auto | auto].
Qed.

(** ** read: normalization *)

Lemma peakZ_ge raw z : In z raw -> Z.abs z <= peakZ raw.
Proof.
  unfold peakZ. induction raw as [|a raw IH]; simpl; [tauto|].
  intros [->|H]; [lia | specialize (IH H); lia].
Qed.

Lemma peakZ_attained raw : raw <> [] -> exists z, In z raw /\ Z.abs z = peakZ raw.
Proof.
  unfold peakZ. induction raw as [|a raw IH]; [congruence|]. intros _.
  destruct raw as [|b raw'].
  - exists a. simpl. split; [now left | lia].
  - destruct IH as (z & Hz & Habs); [congruence|].
    cbn [map foldr] in *.
    destruct (Z.max_spec (Z.abs a) (Z.max (Z.abs b) (foldr Z.max 0 (map Z.abs raw')))) as [[_ E]|[_ E]].
    + exists z. split; [now right | lia].
    + exists a. split; [now left | lia].
Qed.

Lemma Qabs_inject_Z z : Qabs (inject_Z z) = inject_Z (Z.abs z).
Proof. reflexivity. Qed.

Lemma np_max_abs_raw raw :
  raw <> [] ->
  np_max (np_abs (astype_float32 raw)) = Some (Fin (inject_Z (peakZ raw))).
Proof.
  intros Hne.
  destruct (np_max_fin (np_abs (astype_float32 raw))) as (m & Hm & Hin & Hall).
  - destruct raw; [congruence | discriminate].
  - unfold np_abs, astype_float32. rewrite Forall_map, Forall_map.
    apply Forall_forall. intros; exact I.
  - rewrite Hm. do 2 f_equal.
    unfold np_abs, astype_float32 in Hin, Hall. rewrite map_map in Hin, Hall.
    apply in_map_iff in Hin as (z0 & E0 & Hz0).
    change (Fin (inject_Z (Z.abs z0)) = Fin m) in E0. injection E0 as <-. f_equal.
    destruct (peakZ_attained raw Hne) as (z1 & Hz1 & E1).
    pose proof (peakZ_ge raw z0 Hz0).
    assert (inject_Z (Z.abs z1) <= inject_Z (Z.abs z0))%Q as Hle.
    { apply Hall. apply in_map_iff. exists z1. split; [reflexivity | assumption]. }
    rewrite <- Zle_Qle in Hle. lia.
Qed.

Lemma Qzero_false q : Qzero q = false <-> ~ (q == 0)%Q.
Proof.
  unfold Qzero, Qeq. simpl. rewrite Z.eqb_neq. lia.
Qed.

Lemma Qzero_true q : Qzero q = true <-> (q == 0)%Q.
Proof.
  unfold Qzero, Qeq. simpl. rewrite Z.eqb_eq. lia.
Qed.

Lemma Qabs_div_le_1 z p :
  0 < p -> Z.abs z <= p -> (Qabs (Qred (inject_Z z / inject_Z p)) <= 1)%Q.
Proof.
  intros Hp Hz. rewrite Qred_correct.
  unfold Qdiv. rewrite Qabs_Qmult, Qabs_Qinv, !Qabs_inject_Z.
  replace (Z.abs p) with p by lia.
  apply Qle_shift_div_r.
  - replace 0%Q with (inject_Z 0) by reflexivity. now rewrite <- Zlt_Qlt.
  - rewrite Qmult_1_l. now rewrite <- Zle_Qle.
Qed.

Lemma Qabs_div_eq_1 z p :
  0 < p -> Z.abs z = p -> (Qabs (Qred (inject_Z z / inject_Z p)) == 1)%Q.
Proof.
  intros Hp Hz. rewrite Qred_correct.
  unfold Qdiv. rewrite Qabs_Qmult, Qabs_Qinv, !Qabs_inject_Z.
  rewrite Hz. replace (Z.abs p) with p by lia.
  apply Qmult_inv_r. unfold Qeq. simpl. lia.
Qed.

(** C1.  For a decoded buffer with at least one non-zero sample, [read]
    returns the sample rate of the file and a fresh array in which every
    sample has been divided by the global peak absolute value of the buffer;
    the largest absolute value of the returned samples is 1. *)
Theorem read_normalizes (path : string) (w : world) (f : wavfile) :
  files w !! path = Some f ->
  (exists z, In z (wav_data f) /\ z <> 0) ->
  let peak := peakZ (wav_data f) in
  let sample :=
    map (fun z => Fin (Qred (inject_Z z / inject_Z peak))) (wav_data f) in
  exists l : loc,
    heap w !! l = None
    /\ read path w
       = (inr (wav_rate f, l),
          World (<[l := sample]> (heap w)) (dirs w) (files w))
    /\ np_max (np_abs (astype_float32 (wav_data f))) = Some (Fin (inject_Z peak))
    /\ 0 < peak
    /\ exists m, np_max (np_abs sample) = Some m /\ feq m (Fin 1).
Proof.
  intros Hf (z0 & Hz0 & Hnz) peak sample.
  assert (wav_data f <> []) as Hne by (intros E; rewrite E in Hz0; destruct Hz0).
  assert (0 < peak) as Hpos.
  { pose proof (peakZ_ge _ _ Hz0). unfold peak. lia. }
  set (l := fresh (dom (heap w))).
  assert (heap w !! l = None) as Hfresh.
  { apply not_elem_of_dom. apply is_fresh. }
  exists l. split; [exact Hfresh|]. split; [|split; [now apply np_max_abs_raw|split; [exact Hpos|]]].
  - unfold read.
    erewrite bind_inr; [|unfold wav_read; rewrite Hf; reflexivity].
    erewrite bind_inr; [|reflexivity].
    erewrite bind_inr; [|unfold load; cbn [heap]; rewrite lookup_insert_eq; reflexivity].
    erewrite bind_inr; [|rewrite (np_max_abs_raw _ Hne); reflexivity].
    erewrite bind_inr; [|reflexivity].
    unfold ret. cbn [heap dirs files]. fold l. rewrite insert_insert_eq.
    do 3 f_equal. unfold astype_float32. rewrite map_map.
    apply map_ext. intros z. cbn.
    assert (Qzero (inject_Z (peakZ (wav_data f))) = false) as ->; [|reflexivity].
    apply Qzero_false. unfold Qeq. simpl. fold peak. lia.
  - destruct (np_max_fin (np_abs sample)) as (m & Hm & Hin & Hall).
    + unfold sample. destruct (wav_data f); [congruence | discriminate].
    + unfold np_abs, sample. rewrite Forall_map, Forall_map.
      apply Forall_forall. intros; exact I.
    + exists (Fin m). split; [exact Hm|]. simpl.
      unfold np_abs, sample in Hin, Hall. rewrite map_map in Hin, Hall.
      apply Qle_antisym.
      * apply in_map_iff in Hin as (z & E & Hz).
        change (Fin (Qabs (Qred (inject_Z z / inject_Z peak))) = Fin m) in E.
        injection E as <-.
        apply Qabs_div_le_1; [exact Hpos | now apply peakZ_ge].
      * destruct (peakZ_attained _ Hne) as (z1 & Hz1 & E1).
        rewrite <- (Qabs_div_eq_1 z1 peak Hpos E1).
        apply Hall. apply in_map_iff. exists z1. split; [reflexivity | assumption].
Qed.

(** ** Exceptions and frame of the primitive computations *)

Lemma raises_in_bind {A B} (P : exn -> Prop) (m : M A) (k : A -> M B) :
  raises_in P m -> (forall a, raises_in P (k a)) -> raises_in P (bind m k).
Proof.
  intros Hm Hk w e. unfold bind. specialize (Hm w).
  destruct (m w) as [[e'|a] w']; simpl in *.
  - intros [= <-]. now apply Hm.
  - apply Hk.
Qed.

Lemma raises_in_total {A} (P : exn -> Prop) (m : M A) :
  (forall w, exists a, fst (m w) = inr a) -> raises_in P m.
Proof. intros H w e E. destruct (H w) as [a Ha]. congruence. Qed.

Lemma raises_in_lift_opt {A} (P : exn -> Prop) (e : exn) (o : option A) :
  P e -> raises_in P (lift_opt e o).
Proof. intros He w e'. destruct o; simpl; [discriminate | now intros [= <-]]. Qed.

Lemma raises_in_load (P : exn -> Prop) (l : loc) :
  P TypeError -> raises_in P (load l).
Proof. intros H w. unfold load. now apply raises_in_lift_opt. Qed.

Lemma raises_in_wav_read (P : exn -> Prop) (p : string) :
  P IOError -> raises_in P (wav_read p).
Proof. intros H w. unfold wav_read. now apply raises_in_lift_opt. Qed.

Lemma keeps_fs_bind {A B} (m : M A) (k : A -> M B) :
  keeps_fs m -> (forall a, keeps_fs (k a)) -> keeps_fs (bind m k).
Proof.
  intros Hm Hk w. unfold bind. specialize (Hm w).
  destruct (m w) as [[e|a] w']; simpl in *; [exact Hm|].
  destruct (Hk a w') as [H1 H2]. destruct Hm as [H3 H4]. split; congruence.
Qed.

Lemma keeps_fs_lift_opt {A} (e : exn) (o : option A) : keeps_fs (lift_opt e o).
Proof. intros w. now destruct o. Qed.

Lemma keeps_fs_load (l : loc) : keeps_fs (load l).
Proof. intros w. unfold load. apply keeps_fs_lift_opt. Qed.

Lemma keeps_fs_files {A} (m : M A) : keeps_fs m -> keeps_files m.
Proof. intros H w. apply H. Qed.

Lemma keeps_files_bind {A B} (m : M A) (k : A -> M B) :
  keeps_files m -> (forall a, keeps_files (k a)) -> keeps_files (bind m k).
Proof.
  intros Hm Hk w. unfold bind. specialize (Hm w).
  destruct (m w) as [[e|a] w']; simpl in *; [exact Hm|].
  rewrite (Hk a w'). exact Hm.
Qed.

Create HintDb effects.

#[export] Hint Resolve raises_in_lift_opt raises_in_load raises_in_wav_read
  keeps_fs_lift_opt keeps_fs_load : effects.

(** Unfolds a computation along its binds, and closes what the primitive
    computations leave. *)
Ltac effects :=
  repeat first
    [ apply raises_in_bind; [|intros ?]
    | apply keeps_fs_bind; [|intros ?]
    | apply keeps_files_bind; [|intros ?]
    | solve [auto with effects]
    | solve [apply raises_in_total; intros ?; eexists; reflexivity]
    | solve [intros ?; split; reflexivity]
    | solve [intros ?; reflexivity] ].

Lemma raises_in_copy_segments (P : exn -> Prop) (sample new_sample : loc)
    (segments : list (Z * Z)) :
  P ValueError -> P TypeError ->
  forall idx, raises_in P (copy_segments sample new_sample segments idx).
Proof.
  intros HV HT. induction segments as [|[s e] rest IH]; intros idx.
  - cbn. effects.
  - cbn [copy_segments]. effects.
Qed.

Lemma keeps_fs_copy_segments (sample new_sample : loc) (segments : list (Z * Z)) :
  forall idx, keeps_fs (copy_segments sample new_sample segments idx).
Proof.
  induction segments as [|[s e] rest IH]; intros idx.
  - cbn. effects.
  - cbn [copy_segments]. effects.
Qed.

Lemma raises_in_np_zeros (P : exn -> Prop) (n : Z) :
  P ValueError -> raises_in P (np_zeros n).
Proof.
  intros HV. unfold np_zeros. destruct (n <? 0); effects.
  intros w e [= <-]. exact HV.
Qed.

Lemma keeps_fs_np_zeros (n : Z) : keeps_fs (np_zeros n).
Proof. unfold np_zeros. destruct (n <? 0); effects. Qed.

#[export] Hint Resolve raises_in_copy_segments keeps_fs_copy_segments
  raises_in_np_zeros keeps_fs_np_zeros : effects.

Lemma raises_in_extract (P : exn -> Prop) (sample : loc) (segments : list (Z * Z)) :
  P ValueError -> P TypeError -> raises_in P (extract sample segments).
Proof.
  intros HV HT. destruct segments as [|se rest]; [cbn; effects|].
  unfold extract. effects.
Qed.

Lemma keeps_fs_extract (sample : loc) (segments : list (Z * Z)) :
  keeps_fs (extract sample segments).
Proof.
  destruct segments as [|se rest]; [cbn; effects|].
  unfold extract. effects.
Qed.

Lemma raises_in_scale (P : exn -> Prop) (pow10 : Q -> Q) (sample : loc) (dB : Q) :
  P ValueError -> P TypeError -> raises_in P (scale pow10 sample dB).
Proof. intros HV HT. unfold scale. effects. Qed.

Lemma keeps_fs_scale (pow10 : Q -> Q) (sample : loc) (dB : Q) :
  keeps_fs (scale pow10 sample dB).
Proof. unfold scale. effects. Qed.

Lemma raises_in_output_path (P : exn -> Prop) (path output_dir : string) :
  raises_in P (output_path path output_dir).
Proof.
  unfold output_path. destruct (String.eqb output_dir ""); effects.
  destruct a; effects.
Qed.

Lemma keeps_files_output_path (path output_dir : string) :
  keeps_files (output_path path output_dir).
Proof.
  unfold output_path. destruct (String.eqb output_dir ""); effects.
  destruct a; effects.
Qed.

#[export] Hint Resolve raises_in_extract keeps_fs_extract raises_in_scale
  keeps_fs_scale raises_in_output_path keeps_files_output_path
  keeps_fs_files : effects.

Lemma raises_in_write (P : exn -> Prop) (pow10 : Q -> Q) (path : string)
    (rate : Z) (sample : loc) (dB : Q) (output_dir : string)
    (segments : list (Z * Z)) :
  P ValueError -> P TypeError ->
  raises_in P (write pow10 path rate sample dB output_dir segments).
Proof. intros HV HT. unfold write. effects. Qed.

Lemma raises_in_read (P : exn -> Prop) (path : string) :
  P ValueError -> P IOError -> P TypeError -> raises_in P (read path).
Proof. intros HV HI HT. unfold read. effects. Qed.

(** Whatever makes [write] raise, it raises before the file is written. *)
Lemma write_raise_keeps_files (pow10 : Q -> Q) (path : string)
    (rate : Z) (sample : loc) (dB : Q) (output_dir : string)
    (segments : list (Z * Z)) (w : world) (e : exn) :
  fst (write pow10 path rate sample dB output_dir segments w) = inl e ->
  files (snd (write pow10 path rate sample dB output_dir segments w)) = files w.
Proof.
  unfold write.
  set (pre := (s <- extract sample segments ;;
               p <- output_path path output_dir ;;
               scale pow10 s dB ;;;
               a <- load s ;;
               ret (p, a))).
  assert (keeps_files pre) as Hpre.
  { unfold pre. effects. }
  specialize (Hpre w). revert Hpre. unfold pre, bind, ret.
  destruct (extract sample segments w) as [[e1|s] w1]; simpl; [auto|].
  destruct (output_path path output_dir w1) as [[e2|p] w2]; simpl; [auto|].
  destruct (scale pow10 s dB w2) as [[e3|[]] w3]; simpl; [auto|].
  destruct (load s w3) as [[e4|a] w4]; simpl; [auto|].
  unfold wav_write. simpl. discriminate.
Qed.

(** ** write: segment extraction *)

Lemma fold_left_add_shift (l : list Z) (a : Z) :
  fold_left Z.add l a = a + fold_left Z.add l 0.
Proof.
  revert a. induction l as [|x l IH]; intros a; simpl; [lia|].
  rewrite (IH (a + x)), (IH (0 + x)). lia.
Qed.

Lemma total_length_cons se segments :
  total_length (se :: segments) = (snd se - fst se) + total_length segments.
Proof.
  unfold total_length. simpl. now rewrite fold_left_add_shift.
Qed.

Lemma total_length_nonneg n segments :
  Forall (valid_segment n) segments -> 0 <= total_length segments.
Proof.
  induction 1 as [|se l H _ IH]; [reflexivity|].
  rewrite total_length_cons. unfold valid_segment in H. lia.
Qed.

Lemma adjust_in_range (i n : Z) : 0 <= i <= n -> adjust i n = i.
Proof.
  intros H. unfold adjust.
  destruct (i <? 0) eqn:E1; [lia|].
  destruct (n <=? i) eqn:E2; lia.
Qed.

Lemma getslice_valid {A} (b : list A) (s e : Z) :
  valid_segment (len b) (s, e) ->
  getslice b s e = take (Z.to_nat (e - s)) (drop (Z.to_nat s) b)
  /\ length (getslice b s e) = Z.to_nat (e - s).
Proof.
  unfold valid_segment. simpl. intros (H1 & H2 & H3).
  unfold getslice. rewrite !adjust_in_range by lia.
  split; [reflexivity|].
  rewrite length_take, length_drop. unfold len in H3. lia.
Qed.

Lemma getslice_lookup {A} (b : list A) (s e : Z) (i : nat) :
  valid_segment (len b) (s, e) ->
  (i < Z.to_nat (e - s))%nat ->
  getslice b s e !! i = b !! (Z.to_nat s + i)%nat.
Proof.
  intros Hv Hi. destruct (getslice_valid b s e Hv) as [-> _].
  rewrite lookup_take_lt by exact Hi. apply lookup_drop.
Qed.

Lemma setslice_exact {A} (dst src : list A) (idx k : Z) :
  0 <= idx -> 0 <= k -> idx + k <= len dst ->
  length src = Z.to_nat k ->
  setslice dst idx (idx + k) src
  = Some (take (Z.to_nat idx) dst ++ src ++ drop (Z.to_nat (idx + k)) dst).
Proof.
  intros H1 H2 H3 Hlen. unfold setslice.
  rewrite !adjust_in_range by lia.
  replace (Z.to_nat (idx + k - idx)) with (Z.to_nat k) by lia.
  rewrite Hlen, Nat.eqb_refl.
  now replace (Z.to_nat idx + Z.to_nat k)%nat with (Z.to_nat (idx + k)) by lia.
Qed.

Lemma load_some (l : loc) (a : list float) (w : world) :
  heap w !! l = Some a -> load l w = (inr a, w).
Proof. intros H. unfold load. now rewrite H. Qed.

Lemma copy_segments_valid (b : list float) (sample new_sample : loc) :
  sample <> new_sample ->
  forall (segments : list (Z * Z)) (idx : Z) (dst : list float) (w : world),
  heap w !! sample = Some b ->
  heap w !! new_sample = Some dst ->
  Forall (valid_segment (len b)) segments ->
  0 <= idx -> idx + total_length segments <= len dst ->
  copy_segments sample new_sample segments idx w
  = (inr tt,
     World (<[new_sample :=
               take (Z.to_nat idx) dst
               ++ flat_map (fun se => getslice b (fst se) (snd se)) segments
               ++ drop (Z.to_nat (idx + total_length segments)) dst]> (heap w))
           (dirs w) (files w)).
Proof.
  intros Hneq. induction segments as [|[s e] rest IH];
    intros idx dst w Hb Hdst Hvalid Hidx Hfit.
  - cbn [copy_segments flat_map]. unfold ret. f_equal.
    change (total_length []) with 0. rewrite Z.add_0_r, app_nil_l, take_drop.
    destruct w as [h d f]. cbn in *. f_equal. symmetry. now apply insert_id.
  - inversion Hvalid as [|? ? Hse Hrest]; subst.
    rewrite total_length_cons in Hfit. cbn [fst snd] in Hfit.
    pose proof (total_length_nonneg _ _ Hrest) as Hnn.
    destruct (getslice_valid b s e Hse) as [_ Hlen].
    assert (0 <= e - s) as Hk by (unfold valid_segment in Hse; simpl in Hse; lia).
    cbn [copy_segments].
    erewrite bind_inr; [|apply load_some; exact Hb].
    erewrite bind_inr; [|apply load_some; exact Hdst].
    erewrite bind_inr;
      [|rewrite (setslice_exact dst _ idx (e - s)) by (try lia; exact Hlen);
        reflexivity].
    erewrite bind_inr; [|reflexivity].
    rewrite (IH (idx + (e - s))
               (take (Z.to_nat idx) dst ++ getslice b s e
                  ++ drop (Z.to_nat (idx + (e - s))) dst)).
    + cbn [heap dirs files]. rewrite insert_insert_eq. do 3 f_equal.
      cbn [flat_map fst snd]. rewrite total_length_cons. cbn [fst snd].
      assert (length (take (Z.to_nat idx) dst) = Z.to_nat idx) as Ht.
      { rewrite length_take. unfold len in Hfit. lia. }
      rewrite (app_assoc (take _ dst)), take_app_length'; cycle 1.
      { rewrite length_app, Ht, Hlen. lia. }
      rewrite <- !app_assoc. do 2 f_equal.
      rewrite (app_assoc (take _ dst)), drop_app_ge; cycle 1.
      { rewrite length_app, Ht, Hlen. lia. }
      rewrite length_app, Ht, Hlen, drop_drop. repeat (f_equal; try lia).
    + cbn [heap]. now rewrite lookup_insert_ne by (intros E; now apply Hneq).
    + cbn [heap]. now rewrite lookup_insert_eq.
    + exact Hrest.
    + lia.
    + unfold len. rewrite !length_app, length_take, length_drop, Hlen.
      unfold len in Hfit. lia.
Qed.

Lemma len_flat_map_getslice (b : list float) (segments : list (Z * Z)) :
  Forall (valid_segment (len b)) segments ->
  len (flat_map (fun se => getslice b (fst se) (snd se)) segments)
  = total_length segments.
Proof.
  induction 1 as [|[s e] rest Hse _ IH]; [reflexivity|].
  rewrite total_length_cons. cbn [flat_map fst snd].
  destruct (getslice_valid b s e Hse) as [_ Hlen].
  unfold len in *. rewrite length_app, Hlen, Nat2Z.inj_add, IH.
  unfold valid_segment in Hse. simpl in Hse. lia.
Qed.

(** C3.  With a non-empty list of segments that all lie within the buffer,
    the extraction step of [write] builds a fresh array that holds the slices
    [b[start:end]] one after the other, in list order; its length is the sum
    of the segment lengths, and each slice is the run of [end - start]
    samples of [b] that starts at [start]. *)
Theorem extract_concatenates (w : world) (sample : loc) (b : list float)
    (segments : list (Z * Z)) :
  heap w !! sample = Some b ->
  segments <> [] ->
  Forall (valid_segment (len b)) segments ->
  let out := flat_map (fun se => getslice b (fst se) (snd se)) segments in
  exists new_sample : loc,
    heap w !! new_sample = None
    /\ extract sample segments w
       = (inr new_sample,
          World (<[new_sample := out]> (heap w)) (dirs w) (files w))
    /\ len out = total_length segments
    /\ Forall (fun se =>
                 getslice b (fst se) (snd se)
                 = take (Z.to_nat (snd se - fst se)) (drop (Z.to_nat (fst se)) b)
                 /\ len (getslice b (fst se) (snd se)) = snd se - fst se)
              segments.
Proof.
  intros Hb Hne Hvalid out.
  set (l := fresh (dom (heap w))).
  assert (heap w !! l = None) as Hfresh by (apply not_elem_of_dom, is_fresh).
  assert (sample <> l) as Hneq by (intros E; rewrite E in Hb; congruence).
  pose proof (total_length_nonneg _ _ Hvalid) as Hnn.
  exists l. split; [exact Hfresh|]. split; [|split].
  - destruct segments as [|se rest]; [congruence|].
    unfold extract. fold (total_length (se :: rest)).
    erewrite bind_inr; cycle 1.
    { unfold np_zeros. destruct (total_length (se :: rest) <? 0) eqn:E; [lia|].
      reflexivity. }
    fold l.
    erewrite bind_inr; cycle 1.
    { apply (copy_segments_valid b sample l Hneq (se :: rest) 0
               (replicate (Z.to_nat (total_length (se :: rest))) (Fin 0))).
      - cbn [heap]. now rewrite lookup_insert_ne by (intros E; now apply Hneq).
      - cbn [heap]. now rewrite lookup_insert_eq.
      - exact Hvalid.
      - lia.
      - unfold len. rewrite length_replicate. lia. }
    unfold ret. cbn [heap dirs files]. rewrite insert_insert_eq.
    do 3 f_equal. change (Z.to_nat 0) with 0%nat. rewrite take_0, app_nil_l.
    rewrite drop_ge, app_nil_r; [reflexivity|].
    rewrite length_replicate. lia.
  - now apply len_flat_map_getslice.
  - eapply Forall_impl; [exact Hvalid|]. intros [s e] Hse. cbn [fst snd].
    destruct (getslice_valid b s e Hse) as [E Hlen]. split; [exact E|].
    unfold len. rewrite Hlen. unfold valid_segment in Hse. simpl in Hse. lia.
Qed.

(** C6.  With an empty list of segments the extraction step hands the
    caller's array itself, untouched, to the rest of [write]. *)
Theorem extract_no_segments (pow10 : Q -> Q) (path : string) (rate : Z)
    (sample : loc) (dB : Q) (output_dir : string) (w : world) :
  extract sample [] w = (inr sample, w)
  /\ write pow10 path rate sample dB output_dir [] w
     = (path' <- output_path path output_dir ;;
        scale pow10 sample dB ;;;
        a <- load sample ;;
        wav_write path' rate (map astype_int16 a)) w.
Proof. split; reflexivity. Qed.

(** ** Conversion to 16-bit integers *)

Lemma testbit_15 (u : Z) :
  0 <= u < 65536 -> Z.testbit u 15 = (32768 <=? u).
Proof.
  intros Hu. rewrite Z.testbit_odd, Z.shiftr_div_pow2 by lia.
  change (2 ^ 15) with 32768.
  destruct (32768 <=? u) eqn:E.
  - replace (u / 32768) with 1; [reflexivity|].
    apply Z.div_unique with (r := u - 32768); lia.
  - rewrite Z.div_small by lia. reflexivity.
Qed.

Lemma wrap16_spec (z : Z) :
  -32768 <= wrap16 z <= 32767
  /\ (wrap16 z - z) mod 65536 = 0
  /\ (-32768 <= z <= 32767 -> wrap16 z = z).
Proof.
  unfold wrap16. change 65535 with (Z.ones 16).
  rewrite Z.land_ones by lia. change (2 ^ 16) with 65536.
  pose proof (Z.mod_pos_bound z 65536 ltac:(lia)) as Hb.
  rewrite testbit_15 by exact Hb.
  pose proof (Z.div_mod z 65536 ltac:(lia)) as Hdm.
  destruct (32768 <=? z mod 65536) eqn:E.
  - split; [lia|]. split.
    + replace (z mod 65536 - 65536 - z) with ((- (z / 65536) - 1) * 65536) by lia.
      apply Z.mod_mul. lia.
    + intros Hz. assert (z / 65536 = -1) by lia. lia.
  - split; [lia|]. split.
    + replace (z mod 65536 - z) with ((- (z / 65536)) * 65536) by lia.
      apply Z.mod_mul. lia.
    + intros Hz. assert (z / 65536 = 0) by lia. lia.
Qed.

Lemma trunc_toward_zero (q : Q) :
  ((0 <= q)%Q -> (inject_Z (trunc q) <= q)%Q /\ (q < inject_Z (trunc q + 1))%Q)
  /\ ((q <= 0)%Q -> (q <= inject_Z (trunc q))%Q /\ (inject_Z (trunc q - 1) < q)%Q).
Proof.
  destruct q as [n d]. unfold trunc, Qle, Qlt, inject_Z. cbn [Qnum Qden].
  rewrite !Z.mul_1_r.
  pose proof (Z.quot_rem' n (Z.pos d)) as Hqr.
  pose proof (Z.rem_bound_pos n (Z.pos d)) as Hp.
  pose proof (Z.rem_bound_pos_neg n (Z.pos d)) as Hm.
  set (t := n ÷ Z.pos d) in *. set (r := Z.rem n (Z.pos d)) in *.
  clearbody t r. split; intros Hn.
  - specialize (Hp ltac:(lia) ltac:(lia)). split; lia.
  - specialize (Hm ltac:(lia) ltac:(lia)). split; lia.
Qed.

Lemma astype_int16_range (x : float) : -32768 <= astype_int16 x <= 32767.
Proof.
  destruct x as [q| |]; cbn [astype_int16]; [|lia|lia].
  destruct (fits_int32 (trunc q)); [|lia].
  now destruct (wrap16_spec (trunc q)) as [Hr _].
Qed.

Lemma fits_int32_spec (z : Z) :
  fits_int32 z = true <-> -2147483648 <= z <= 2147483647.
Proof. unfold fits_int32. rewrite andb_true_iff, !Z.leb_le. tauto. Qed.

(** ** write: loudness scaling *)

Lemma scale_eval (pow10 : Q -> Q) (w : world) (sample : loc)
    (a : list float) (dB : Q) (peak : float) :
  heap w !! sample = Some a ->
  np_max a = Some peak ->
  scale pow10 sample dB w
  = (inr tt,
     World (<[sample :=
               map (fun x => fmul x (fdiv (Fin (pow10 (dB / 10)%Q)) peak)) a]>
              (heap w))
           (dirs w) (files w)).
Proof.
  intros Ha Hmax. unfold scale.
  erewrite bind_inr; [|apply load_some; exact Ha].
  erewrite bind_inr; [|rewrite Hmax; reflexivity].
  reflexivity.
Qed.

(** [np.max] is the signed maximum: the sample of largest magnitude is not
    the peak when it is negative. *)
Example np_max_signed : np_max [Fin (-3); Fin 1; Fin (1 # 2)] = Some (Fin 1).
Proof. reflexivity. Qed.






(** ** Silent buffers *)

Lemma fresh_loc (w : world) : heap w !! fresh (dom (heap w)) = None.
Proof. apply not_elem_of_dom, is_fresh. Qed.

Lemma peakZ_zeros (raw : list Z) : Forall (eq 0) raw -> peakZ raw = 0.
Proof.
  unfold peakZ. induction 1 as [|z l <- _ IH]; [reflexivity|].
  cbn [map foldr]. rewrite IH. reflexivity.
Qed.

Lemma map_const_replicate {A B} (f : A -> B) (c : B) (l : list A) :
  Forall (fun x => f x = c) l -> map f l = replicate (length l) c.
Proof.
  induction 1 as [|x l Hx _ IH]; [reflexivity|].
  cbn. now rewrite Hx, IH.
Qed.

Lemma read_silent (path : string) (w : world) (f : wavfile) :
  files w !! path = Some f ->
  wav_data f <> [] ->
  Forall (eq 0) (wav_data f) ->
  read path w
  = (inr (wav_rate f, fresh (dom (heap w))),
     World (<[fresh (dom (heap w)) := replicate (length (wav_data f)) NaN]> (heap w))
           (dirs w) (files w)).
Proof.
  intros Hf Hne Hzero. unfold read.
  erewrite bind_inr; [|unfold wav_read; rewrite Hf; reflexivity].
  erewrite bind_inr; [|reflexivity].
  erewrite bind_inr; [|unfold load; cbn [heap]; rewrite lookup_insert_eq; reflexivity].
  erewrite bind_inr; [|rewrite (np_max_abs_raw _ Hne); reflexivity].
  erewrite bind_inr; [|reflexivity].
  unfold ret. cbn [heap dirs files]. rewrite insert_insert_eq.
  do 3 f_equal. rewrite (peakZ_zeros _ Hzero).
  unfold astype_float32. rewrite map_map.
  apply map_const_replicate. eapply Forall_impl; [exact Hzero|].
  intros z <-. reflexivity.
Qed.

Lemma scale_silent (pow10 : Q -> Q) (w : world) (sample : loc)
    (a : list float) (dB : Q) :
  heap w !! sample = Some a ->
  a <> [] ->
  Forall (fun x => feq x (Fin 0)) a ->
  scale pow10 sample dB w
  = (inr tt,
     World (<[sample := replicate (length a) NaN]> (heap w)) (dirs w) (files w)).
Proof.
  intros Ha Hne Hzero.
  assert (Forall is_finite a) as Hfin.
  { eapply Forall_impl; [exact Hzero|]. intros [q| |] H; now simpl in *. }
  destruct (np_max_fin a Hne Hfin) as (m & Hmax & Hin & _).
  rewrite (scale_eval pow10 w sample a dB (Fin m) Ha Hmax). do 3 f_equal.
  apply map_const_replicate.
  assert (Qzero m = true) as Hm.
  { apply Qzero_true. rewrite Forall_forall in Hzero.
    apply list_elem_of_In, Hzero in Hin. exact Hin. }
  eapply Forall_impl; [exact Hzero|]. intros [q| |] Hq; try contradiction.
  simpl in Hq. apply Qzero_true in Hq.
  unfold fdiv. rewrite Hm.
  destruct (Qzero (pow10 (dB / 10)%Q)); unfold fmul; [reflexivity|].
  now rewrite Hq.
Qed.

Lemma output_path_total (path output_dir : string) (w : world) :
  exists (p : string) (w' : world),
    output_path path output_dir w = (inr p, w')
    /\ heap w' = heap w /\ files w' = files w
    /\ (output_dir = ""%string -> p = path /\ w' = w).
Proof.
  unfold output_path. destruct (String.eqb_spec output_dir "") as [->|Hne].
  - exists path, w. repeat split; reflexivity.
  - unfold bind, os_path_exists.
    destruct (_ || _); simpl; eexists _, _;
      (split; [reflexivity|]); repeat split; try reflexivity; congruence.
Qed.

(** C2 (amended).  No check for a silent buffer exists: neither [read] nor
    [write] ever raises [DegenerateSignalError].  On a non-empty buffer of
    zeros the normalization of [read] returns normally, with a buffer of
    NaN (0/0); the scaling step of [write] likewise turns every sample into
    NaN, and [write] goes on to write the file. *)
Theorem silent_buffer_yields_nan (pow10 : Q -> Q) (w : world) :
  (forall path f,
     files w !! path = Some f ->
     wav_data f <> [] ->
     Forall (eq 0) (wav_data f) ->
     exists l : loc,
       heap w !! l = None
       /\ read path w
          = (inr (wav_rate f, l),
             World (<[l := replicate (length (wav_data f)) NaN]> (heap w))
                   (dirs w) (files w)))
  /\ (forall sample a dB,
        heap w !! sample = Some a ->
        a <> [] ->
        Forall (fun x => feq x (Fin 0)) a ->
        scale pow10 sample dB w
        = (inr tt,
           World (<[sample := replicate (length a) NaN]> (heap w))
                 (dirs w) (files w))
        /\ forall path rate output_dir,
             fst (write pow10 path rate sample dB output_dir [] w) = inr tt)
  /\ (forall path, fst (read path w) <> inl DegenerateSignalError)
  /\ (forall path rate sample dB output_dir segments,
        fst (write pow10 path rate sample dB output_dir segments w)
        <> inl DegenerateSignalError).
Proof.
  repeat split.
  - intros path f Hf Hne Hzero. exists (fresh (dom (heap w))).
    split; [apply fresh_loc | now apply read_silent].
  - now apply scale_silent.
  - intros path rate output_dir. unfold write.
    erewrite bind_inr; [|reflexivity].
    destruct (output_path_total path output_dir w) as (p & w' & Hp & Hh & _).
    erewrite bind_inr; [|exact Hp].
    erewrite bind_inr; [|apply scale_silent; try eassumption; now rewrite Hh].
    erewrite bind_inr; [|unfold load; cbn [heap]; rewrite lookup_insert_eq; reflexivity].
    reflexivity.
  - intros path E.
    now apply (raises_in_read (fun e => e <> DegenerateSignalError) path) in E.
  - intros path rate sample dB output_dir segments E.
    now apply (raises_in_write (fun e => e <> DegenerateSignalError)) in E.
Qed.

(** C2, as stated, fails: a wave file of two silent samples is read without
    any exception and yields two NaN; an array of two zeros is scaled to two
    NaN and written, again without any exception. *)
Lemma silent_buffer_not_rejected :
  fst (read "silence.wav" w_silent) = inr (8000, 0%nat)
  /\ heap (snd (read "silence.wav" w_silent)) !! 0%nat = Some [NaN; NaN]
  /\ fst (read "silence.wav" w_silent) <> inl DegenerateSignalError
  /\ fst (scale pow10_int 0%nat 30 w_zero) = inr tt
  /\ heap (snd (scale pow10_int 0%nat 30 w_zero)) !! 0%nat = Some [NaN; NaN]
  /\ fst (write pow10_int "out.wav" 8000 0%nat 30 "" [] w_zero) = inr tt
  /\ fst (write pow10_int "out.wav" 8000 0%nat 30 "" [] w_zero)
     <> inl DegenerateSignalError.
Proof.
  repeat split; try (vm_compute; reflexivity); vm_compute; discriminate.
Qed.

(** ** Malformed segments *)

Lemma write_negative_total (pow10 : Q -> Q) (path : string) (rate : Z)
    (sample : loc) (dB : Q) (output_dir : string) (segments : list (Z * Z))
    (w : world) :
  total_length segments < 0 ->
  write pow10 path rate sample dB output_dir segments w = (inl ValueError, w).
Proof.
  intros Hneg. destruct segments as [|se rest]; [discriminate|].
  unfold write, extract. fold (total_length (se :: rest)).
  erewrite bind_inl; [reflexivity|].
  erewrite bind_inl; [reflexivity|].
  unfold np_zeros. now apply Z.ltb_lt in Hneg as ->.
Qed.

Lemma setslice_mismatch {A} (dst src : list A) (k : Z) :
  0 <= k -> len dst = k ->
  length src <> Z.to_nat k -> length src <> 1%nat ->
  setslice dst 0 (0 + k) src = None.
Proof.
  intros Hk Hdst H1 H2. unfold setslice.
  rewrite !adjust_in_range by lia.
  replace (Z.to_nat (0 + k - 0)) with (Z.to_nat k) by lia.
  apply Nat.eqb_neq in H1 as ->.
  destruct src as [|x [|y src]]; simpl in *; congruence.
Qed.

Lemma write_single_mismatch (pow10 : Q -> Q) (path : string) (rate : Z)
    (sample : loc) (dB : Q) (output_dir : string) (w : world)
    (b : list float) (s e : Z) :
  heap w !! sample = Some b ->
  s <= e ->
  length (getslice b s e) <> Z.to_nat (e - s) ->
  length (getslice b s e) <> 1%nat ->
  write pow10 path rate sample dB output_dir [(s, e)] w
  = (inl ValueError,
     World (<[fresh (dom (heap w)) := replicate (Z.to_nat (e - s)) (Fin 0)]> (heap w))
           (dirs w) (files w)).
Proof.
  intros Hb Hse H1 H2.
  assert (sample <> fresh (dom (heap w))) as Hneq.
  { intros E. pose proof (fresh_loc w) as Hf. rewrite <- E in Hf. congruence. }
  unfold write, extract. cbn [map fold_left fst snd]. rewrite Z.add_0_l.
  erewrite bind_inl; [reflexivity|].
  erewrite bind_inr; cycle 1.
  { unfold np_zeros. destruct (e - s <? 0) eqn:E; [lia | reflexivity]. }
  erewrite bind_inl; [reflexivity|].
  cbn [copy_segments].
  erewrite bind_inr; cycle 1.
  { apply load_some. cbn [heap]. rewrite lookup_insert_ne; [exact Hb | auto]. }
  erewrite bind_inr; cycle 1.
  { apply load_some. cbn [heap]. apply lookup_insert_eq. }
  erewrite bind_inl; [reflexivity|].
  rewrite setslice_mismatch; [reflexivity | lia | | exact H1 | exact H2].
  unfold len. rewrite length_replicate. lia.
Qed.

Lemma adjust_cases (i n : Z) :
  (i < 0 -> adjust i n = Z.max 0 (i + n))
  /\ (0 <= i -> adjust i n = Z.min i n).
Proof.
  unfold adjust. destruct (i <? 0) eqn:E1.
  - split; [intros _|lia]. destruct (i + n <? 0) eqn:E2; lia.
  - split; [lia|intros _]. destruct (n <=? i) eqn:E2; lia.
Qed.

Lemma getslice_length {A} (b : list A) (s e : Z) :
  length (getslice b s e)
  = Z.to_nat (Z.min (len b) (adjust e (len b)) - adjust s (len b)).
Proof.
  unfold getslice. rewrite length_take, length_drop. unfold len.
  destruct (adjust_cases s (Z.of_nat (length b))). lia.
Qed.

(** C4 (amended).  [write] does not validate its segments and never raises
    [InvalidSegmentError].  What stops a malformed segment list is numpy: a
    list whose total length is negative, such as a single segment with
    [end < start], fails at the allocation with [ValueError] and leaves the
    world as it was; a single segment with [start <= end] whose source slice
    [sample[start:end]], once its bounds are clipped, has neither length
    [end - start] nor length 1 fails at the slice assignment with
    [ValueError], before any access to the file system.  This is the case of
    [(-1, 2)] on a buffer of length 0 or at least 3, and of [(0, L+1)] on a
    buffer of length [L] other than 1.  Whenever [write] raises, no file has
    been written. *)
Theorem write_malformed_segments (pow10 : Q -> Q) (path : string) (rate : Z)
    (sample : loc) (dB : Q) (output_dir : string) (w : world) (b : list float) :
  heap w !! sample = Some b ->
  let run := fun segments =>
    write pow10 path rate sample dB output_dir segments w in
  (forall segments, fst (run segments) <> inl InvalidSegmentError)
  /\ (forall segments e,
        fst (run segments) = inl e -> files (snd (run segments)) = files w)
  /\ (forall segments,
        total_length segments < 0 -> run segments = (inl ValueError, w))
  /\ (forall s e, e < s -> run [(s, e)] = (inl ValueError, w))
  /\ (forall s e,
        s <= e ->
        length (getslice b s e) <> Z.to_nat (e - s) ->
        length (getslice b s e) <> 1%nat ->
        fst (run [(s, e)]) = inl ValueError
        /\ dirs (snd (run [(s, e)])) = dirs w
        /\ files (snd (run [(s, e)])) = files w)
  /\ (len b = 0 \/ 3 <= len b ->
        fst (run [(-1, 2)]) = inl ValueError
        /\ dirs (snd (run [(-1, 2)])) = dirs w
        /\ files (snd (run [(-1, 2)])) = files w)
  /\ (len b <> 1 ->
        fst (run [(0, len b + 1)]) = inl ValueError
        /\ dirs (snd (run [(0, len b + 1)])) = dirs w
        /\ files (snd (run [(0, len b + 1)])) = files w).
Proof.
  intros Hb run.
  assert (forall s e, s <= e ->
            length (getslice b s e) <> Z.to_nat (e - s) ->
            length (getslice b s e) <> 1%nat ->
            fst (run [(s, e)]) = inl ValueError
            /\ dirs (snd (run [(s, e)])) = dirs w
            /\ files (snd (run [(s, e)])) = files w) as Hsingle.
  { intros s e Hse H1 H2. unfold run.
    rewrite (write_single_mismatch pow10 path rate sample dB output_dir w b s e)
      by assumption.
    repeat split. }
  split; [|split; [|split; [|split; [|split; [|split]]]]].
  - intros segments E.
    now apply (raises_in_write (fun e => e <> InvalidSegmentError)) in E.
  - intros segments e. apply write_raise_keeps_files.
  - intros segments. apply write_negative_total.
  - intros s e Hlt. apply write_negative_total.
    unfold total_length. simpl. lia.
  - exact Hsingle.
  - intros HL. apply Hsingle; [lia| |]; rewrite getslice_length;
      destruct (adjust_cases (-1) (len b)), (adjust_cases 2 (len b)); lia.
  - intros HL. pose proof (Nat2Z.is_nonneg (length b)) as Hnn. fold (len b) in Hnn.
    apply Hsingle; [lia| |]; rewrite getslice_length;
      destruct (adjust_cases 0 (len b)), (adjust_cases (len b + 1) (len b)); lia.
Qed.

(** C4, as stated, fails: on the array [[1.0; 0.5]] the segment [(-1, 2)]
    has a negative index, yet [write] raises nothing: the one-sample slice
    [sample[-1:2]] is broadcast over three samples, and the file is
    written. *)
Lemma malformed_segment_accepted :
  len [Fin 1; Fin (1 # 2)] = 2
  /\ heap w_two !! 0%nat = Some [Fin 1; Fin (1 # 2)]
  /\ fst (write pow10_int "out.wav" 8000 0%nat 30 "" [(-1, 2)] w_two) = inr tt
  /\ fst (write pow10_int "out.wav" 8000 0%nat 30 "" [(-1, 2)] w_two)
     <> inl InvalidSegmentError
  /\ files (snd (write pow10_int "out.wav" 8000 0%nat 30 "" [(-1, 2)] w_two))
       !! "out.wav"%string
     = Some (Wav 8000 [1000; 1000; 1000]).
Proof.
  repeat split; try (vm_compute; reflexivity); vm_compute; discriminate.
Qed.

(** ** What write does to the caller's array *)

Lemma keeps_loc_bind {A B} (l : loc) (m : M A) (k : A -> M B) :
  keeps_loc l m -> (forall a, keeps_loc l (k a)) -> keeps_loc l (bind m k).
Proof.
  intros Hm Hk w. unfold bind. specialize (Hm w).
  destruct (m w) as [[e|a] w']; simpl in *; [exact Hm|].
  rewrite (Hk a w'). exact Hm.
Qed.

Lemma keeps_loc_lift_opt {A} (l : loc) (e : exn) (o : option A) :
  keeps_loc l (lift_opt e o).
Proof. intros w. now destruct o. Qed.

Lemma keeps_loc_load (l l' : loc) : keeps_loc l (load l').
Proof. intros w. unfold load. apply keeps_loc_lift_opt. Qed.

Lemma keeps_loc_store (l l' : loc) (a : list float) :
  l' <> l -> keeps_loc l (store l' a).
Proof. intros Hne w. cbn. now apply lookup_insert_ne. Qed.

Lemma keeps_loc_output_path (l : loc) (path output_dir : string) :
  keeps_loc l (output_path path output_dir).
Proof.
  intros w. destruct (output_path_total path output_dir w) as (p & w' & E & Hh & _).
  rewrite E. cbn. now rewrite Hh.
Qed.

#[export] Hint Resolve keeps_loc_lift_opt keeps_loc_load keeps_loc_store
  keeps_loc_output_path : effects.

Ltac frame :=
  repeat first
    [ apply keeps_loc_bind; [|intros ?]
    | solve [auto with effects]
    | solve [intros ?; reflexivity] ].

Lemma keeps_loc_copy_segments (sample new_sample : loc) (segments : list (Z * Z)) :
  new_sample <> sample ->
  forall idx, keeps_loc sample (copy_segments sample new_sample segments idx).
Proof.
  intros Hne. induction segments as [|[s e] rest IH]; intros idx.
  - cbn. frame.
  - cbn [copy_segments]. frame.
Qed.

Lemma keeps_loc_scale (pow10 : Q -> Q) (l sample : loc) (dB : Q) :
  sample <> l -> keeps_loc l (scale pow10 sample dB).
Proof. intros Hne. unfold scale. frame. Qed.

#[export] Hint Resolve keeps_loc_copy_segments keeps_loc_scale : effects.

(** With segments, [write] works on an array of its own: the caller's array
    is the same after the call, whether [write] returns or raises. *)
Lemma write_segments_frame (pow10 : Q -> Q) (path : string) (rate : Z)
    (sample : loc) (dB : Q) (output_dir : string) (segments : list (Z * Z))
    (w : world) (b : list float) :
  heap w !! sample = Some b ->
  segments <> [] ->
  heap (snd (write pow10 path rate sample dB output_dir segments w)) !! sample
  = Some b.
Proof.
  intros Hb Hne. destruct segments as [|se rest]; [congruence|].
  set (new := fresh (dom (heap w))).
  assert (new <> sample) as Hneq.
  { intros E. pose proof (fresh_loc w) as Hf. fold new in Hf. congruence. }
  assert (keeps_loc sample
            (copy_segments sample new (se :: rest) 0 ;;;
             p <- output_path path output_dir ;;
             scale pow10 new dB ;;;
             a <- load new ;;
             wav_write p rate (map astype_int16 a))) as Hrest by frame.
  unfold write, extract. fold (total_length (se :: rest)).
  unfold np_zeros. destruct (total_length (se :: rest) <? 0); [exact Hb|].
  match goal with |- heap (snd ?t) !! _ = _ =>
    replace t with
      ((copy_segments sample new (se :: rest) 0 ;;;
        p <- output_path path output_dir ;;
        scale pow10 new dB ;;;
        a <- load new ;;
        wav_write p rate (map astype_int16 a))
         (World (<[new := replicate (Z.to_nat (total_length (se :: rest))) (Fin 0)]>
                   (heap w)) (dirs w) (files w)))
  end.
  - rewrite Hrest. cbn [heap]. now rewrite lookup_insert_ne.
  - unfold bind, alloc, ret. fold new.
    destruct (copy_segments _ _ _ _ _) as [[e|[]] w1]; reflexivity.
Qed.

(** Without segments, [write] scales the caller's array itself: after the
    call it holds the scaled samples. *)
Lemma write_no_segments_in_place (pow10 : Q -> Q) (path : string) (rate : Z)
    (sample : loc) (dB : Q) (output_dir : string) (w : world)
    (a : list float) (peak : float) :
  heap w !! sample = Some a ->
  np_max a = Some peak ->
  fst (write pow10 path rate sample dB output_dir [] w) = inr tt
  /\ heap (snd (write pow10 path rate sample dB output_dir [] w)) !! sample
     = Some (map (fun x => fmul x (fdiv (Fin (pow10 (dB / 10)%Q)) peak)) a).
Proof.
  intros Ha Hmax. unfold write.
  erewrite bind_inr; [|reflexivity].
  destruct (output_path_total path output_dir w) as (p & w' & Hp & Hh & _).
  erewrite bind_inr; [|exact Hp].
  erewrite bind_inr; [|apply (scale_eval pow10 w' sample a dB peak); congruence].
  erewrite bind_inr; [|unfold load; cbn [heap]; rewrite lookup_insert_eq; reflexivity].
  cbn. split; [reflexivity | apply lookup_insert_eq].
Qed.

(** C7.  The call [write("out.wav", 8000, sample)] on the array
    [[1.0; 0.5]], with the default 30 dB and no segments, returns normally
    and leaves the caller's array holding [[1000.0; 500.0]]: the scaling is
    done in place on the array that was passed in. *)
Theorem write_scales_caller_array :
  heap w_two !! 0%nat = Some [Fin 1; Fin (1 # 2)]
  /\ fst (write pow10_int "out.wav" 8000 0%nat 30 "" [] w_two) = inr tt
  /\ heap (snd (write pow10_int "out.wav" 8000 0%nat 30 "" [] w_two)) !! 0%nat
     = Some [Fin 1000; Fin 500]
  /\ heap (snd (write pow10_int "out.wav" 8000 0%nat 30 "" [(0, 2)] w_two)) !! 0%nat
     = Some [Fin 1; Fin (1 # 2)].
Proof. repeat split; vm_compute; reflexivity. Qed.

(** ** write: conversion to 16-bit integers *)

Lemma write_inversion (pow10 : Q -> Q) (path : string) (rate : Z)
    (sample : loc) (dB : Q) (output_dir : string) (segments : list (Z * Z))
    (w w' : world) :
  write pow10 path rate sample dB output_dir segments w = (inr tt, w') ->
  exists (p : string) (l : loc) (a0 : list float) (peak : float),
    np_max a0 = Some peak
    /\ let a := map (fun x => fmul x (fdiv (Fin (pow10 (dB / 10)%Q)) peak)) a0 in
       heap w' !! l = Some a
       /\ files w' !! p = Some (Wav rate (map astype_int16 a))
       /\ (segments = [] -> l = sample /\ heap w !! sample = Some a0)
       /\ (output_dir = ""%string -> p = path).
Proof.
  unfold write. intros H.
  assert (segments = [] -> extract sample segments w = (inr sample, w)) as Hnil
    by (intros ->; reflexivity).
  unfold bind at 1 in H.
  destruct (extract sample segments w) as [[e1|l] w1] eqn:E1; [discriminate|].
  destruct (output_path_total path output_dir w1) as (p & w2 & Hp & Hh & _ & Hq).
  rewrite (bind_inr _ _ _ _ _ Hp) in H.
  unfold bind at 1 in H. unfold scale in H.
  unfold bind at 1 in H. unfold load at 1 in H. rewrite Hh in H.
  destruct (heap w1 !! l) as [a0|] eqn:Ea0; [|discriminate].
  cbn [lift_opt ret] in H.
  unfold bind at 1 in H.
  destruct (np_max a0) as [peak|] eqn:Emax; [|discriminate].
  cbn [lift_opt ret store] in H.
  rewrite Hh in H.
  erewrite bind_inr in H;
    [|unfold load; cbn [heap]; rewrite lookup_insert_eq; reflexivity].
  cbn in H. injection H as <-.
  exists p, l, a0, peak. split; [exact Emax|]. cbn [heap files].
  split; [apply lookup_insert_eq|]. split; [apply lookup_insert_eq|].
  split.
  - intros Hs. specialize (Hnil Hs). injection Hnil as -> ->.
    split; [reflexivity | exact Ea0].
  - intros Hod. now destruct (Hq Hod).
Qed.

(** C10 (amended).  What [write] puts in the file is the scaled samples,
    each converted to a 16-bit integer.  The conversion drops the fraction of
    a finite value, toward zero, and does not saturate: when the integer
    part fits 32 bits it is kept modulo 2^16 as a signed 16-bit number, so
    that the result lies in [-32768, 32767], is congruent to the integer
    part modulo 65536, and is the integer part itself when that is in range;
    when the integer part does not fit 32 bits the result is 0.  Scaled to
    50 dB, the samples [[1.0; 0.5]] become 100000 and 50000 and are written
    as -31072 and -15536. *)
Theorem write_quantizes (pow10 : Q -> Q) (path : string) (rate : Z)
    (sample : loc) (dB : Q) (output_dir : string) (segments : list (Z * Z))
    (w : world) :
  (forall w',
     write pow10 path rate sample dB output_dir segments w = (inr tt, w') ->
     exists (p : string) (l : loc) (a0 : list float) (peak : float),
       np_max a0 = Some peak
       /\ let a := map (fun x => fmul x (fdiv (Fin (pow10 (dB / 10)%Q)) peak)) a0 in
          heap w' !! l = Some a
          /\ files w' !! p = Some (Wav rate (map astype_int16 a))
          /\ (segments = [] -> l = sample /\ heap w !! sample = Some a0)
          /\ (output_dir = ""%string -> p = path))
  /\ (forall q : Q,
        ((0 <= q)%Q ->
         (inject_Z (trunc q) <= q)%Q /\ (q < inject_Z (trunc q + 1))%Q)
        /\ ((q <= 0)%Q ->
            (q <= inject_Z (trunc q))%Q /\ (inject_Z (trunc q - 1) < q)%Q)
        /\ -32768 <= astype_int16 (Fin q) <= 32767
        /\ (-2147483648 <= trunc q <= 2147483647 ->
            astype_int16 (Fin q) = wrap16 (trunc q)
            /\ (astype_int16 (Fin q) - trunc q) mod 65536 = 0)
        /\ (-32768 <= trunc q <= 32767 -> astype_int16 (Fin q) = trunc q)
        /\ (trunc q < -2147483648 \/ 2147483647 < trunc q ->
            astype_int16 (Fin q) = 0))
  /\ files (snd (write pow10_int "out.wav" 8000 0%nat 50 "" [] w_two))
       !! "out.wav"%string
     = Some (Wav 8000 [-31072; -15536]).
Proof.
  split; [|split].
  - intros w'. apply write_inversion.
  - intros q.
    destruct (trunc_toward_zero q) as [Hpos Hneg].
    destruct (wrap16_spec (trunc q)) as (Hr & Hc & Hi).
    split; [exact Hpos|]. split; [exact Hneg|].
    split; [apply astype_int16_range|].
    cbn [astype_int16]. split; [|split].
    + intros Hfit. apply fits_int32_spec in Hfit. rewrite Hfit. now split.
    + intros Hin. rewrite (proj2 (fits_int32_spec _)) by lia. now apply Hi.
    + intros Hout. destruct (fits_int32 (trunc q)) eqn:E; [|reflexivity].
      apply fits_int32_spec in E. lia.
  - vm_compute. reflexivity.
Qed.

(** C10, as stated, fails: scaled to 100 dB, the samples [[1.0; 0.5]]
    become 10^10 and 5*10^9, whose integer parts do not fit 32 bits; they
    are written as 0 and 0, which are not these values modulo 2^16 (-7168
    and -3584). *)
Lemma wide_value_not_reduced :
  files (snd (write pow10_int "out.wav" 8000 0%nat 100 "" [] w_two))
    !! "out.wav"%string
  = Some (Wav 8000 [0; 0])
  /\ heap (snd (write pow10_int "out.wav" 8000 0%nat 100 "" [] w_two)) !! 0%nat
     = Some [Fin 10000000000; Fin 5000000000]
  /\ wrap16 (trunc 10000000000) = -7168
  /\ wrap16 (trunc 5000000000) = -3584
  /\ (astype_int16 (Fin 10000000000) - trunc 10000000000) mod 65536 <> 0.
Proof.
  repeat split; try (vm_compute; reflexivity). vm_compute. discriminate.
Qed.

(** ** Walker *)

(** Induction on directory trees. *)
Lemma node_induction (P : node -> Prop) :
  P File ->
  (forall entries, Forall (fun e => P (snd e)) entries -> P (Dir entries)) ->
  forall n, P n.
Proof.
  intros HF HD. fix IH 1. intros [|entries]; [exact HF|].
  apply HD. induction entries as [|[name child] rest IHrest].
  - constructor.
  - constructor; [apply IH | exact IHrest].
Qed.

Lemma walk_Dir (top : string) (entries : list (string * node)) :
  walk top (Dir entries)
  = (top, dirnames entries, filenames entries)
    :: flat_map (fun e => walk (os_path_join top (fst e)) (snd e)) entries.
Proof.
  cbn [walk]. f_equal.
  induction entries as [|[name child] rest IH]; [reflexivity|].
  cbn [flat_map fst snd]. rewrite <- IH. f_equal.
  now destruct child.
Qed.

Lemma in_filenames (entries : list (string * node)) (name : string) :
  In name (filenames entries) <-> In (name, File) entries.
Proof.
  unfold filenames. rewrite in_map_iff. split.
  - intros ([n c] & <- & Hin). apply filter_In in Hin as [Hin Hc].
    destruct c; [exact Hin | discriminate].
  - intros Hin. exists (name, File). split; [reflexivity|].
    apply filter_In. split; [exact Hin | reflexivity].
Qed.

Lemma wav_paths_cons dirpath dnames names triples p :
  In p (wav_paths ((dirpath, dnames, names) :: triples))
  <-> (exists name, In name names /\ endswith name ".wav" = true
                    /\ p = os_path_join dirpath name)
      \/ In p (wav_paths triples).
Proof.
  unfold wav_paths. cbn [flat_map]. rewrite in_app_iff, in_map_iff.
  apply or_iff_compat_r. split.
  - intros (name & <- & Hin). exists name.
    apply filter_In in Hin as [Hin Hw]. auto.
  - intros (name & Hin & Hw & ->). exists name. split; [reflexivity|].
    apply filter_In. auto.
Qed.

Lemma wav_paths_flat_map {A} (f : A -> list (string * list string * list string))
    (l : list A) (p : string) :
  In p (wav_paths (flat_map f l)) <-> exists x, In x l /\ In p (wav_paths (f x)).
Proof.
  unfold wav_paths. rewrite in_flat_map. split.
  - intros (t & Ht & Hp). apply in_flat_map in Ht as (x & Hx & Ht).
    exists x. split; [exact Hx|]. apply in_flat_map. now exists t.
  - intros (x & Hx & Hp). apply in_flat_map in Hp as (t & Ht & Hp).
    exists t. split; [|exact Hp]. apply in_flat_map. now exists x.
Qed.

(** The walk of a tree finds the files of the tree whose name ends with
    [.wav], and nothing else. *)
Lemma wav_paths_walk (n : node) : forall (top p : string),
  In p (wav_paths (walk top n))
  <-> exists dirpath name,
        file_in top n dirpath name
        /\ endswith name ".wav" = true
        /\ p = os_path_join dirpath name.
Proof.
  induction n as [|entries IH] using node_induction; intros top p.
  - split; [intros [] | intros (d & nm & H & _); inversion H].
  - rewrite walk_Dir, wav_paths_cons, wav_paths_flat_map. split.
    + intros [(name & Hin & Hw & ->)|([d child] & Hin & Hp)].
      * exists top, name. split; [|auto].
        apply file_here. now apply in_filenames.
      * rewrite Forall_forall in IH.
        apply (IH (d, child)) in Hp; [|now apply list_elem_of_In].
        destruct Hp as (dirpath & name & Hf & Hw & ->).
        exists dirpath, name. split; [|auto].
        now apply file_below with d child.
    + intros (dirpath & name & Hf & Hw & ->).
      inversion Hf as [? ? ? Hin|? ? d child ? ? Hin Hsub]; subst.
      * left. exists name. split; [now apply in_filenames | auto].
      * right. exists (d, child). split; [exact Hin|].
        rewrite Forall_forall in IH.
        apply (IH (d, child)); [now apply list_elem_of_In|].
        now exists dirpath, name.
Qed.

Lemma endswith_suffix (s suffix : string) :
  endswith s suffix = true <-> exists t, s = t +:+ suffix.
Proof.
  induction s as [|c s IH]; cbn [endswith].
  - destruct (String.eqb_spec "" suffix) as [<-|Hne].
    + split; [now exists ""%string | auto].
    + split; [discriminate|].
      intros ([|c t] & E); [now change ("" = suffix)%string in E|].
      change ("" = String c (t +:+ suffix))%string in E. discriminate.
  - destruct (String.eqb_spec (String c s) suffix) as [<-|Hne].
    + split; [now exists ""%string | auto].
    + rewrite IH. split.
      * intros (t & ->). now exists (String c t).
      * intros ([|c' t] & E); [now change (String c s = suffix) in E|].
        change (String c s = String c' (t +:+ suffix)) in E.
        injection E as -> ->. now exists t.
Qed.

Lemma init_recordings (fs : string -> option node) (location : string) :
  Walker._recordings (Walker.init fs location)
  = (if Walker.isfile fs location && endswith location ".wav"
     then [location] else [])
    ++ wav_paths (Walker.os_walk fs location).
Proof. reflexivity. Qed.

(** C8.  The entries of a walker are the root itself, when it is a regular
    file whose name ends with [.wav], and the path of every regular file of
    the tree under the root whose name ends with [.wav]; nothing else is an
    entry.  A root that is a regular file is the only entry, or there is
    none.  The test on names is a test of suffix, character by character:
    in the specification's directory [a.wav] and [sub/b.wav] are found,
    [c.txt] and [sub/d.WAV] are not. *)
Theorem Walker_init_entries (fs : string -> option node) (location : string) :
  (forall p : string,
     In p (Walker._recordings (Walker.init fs location))
     <-> (p = location /\ fs location = Some File
          /\ endswith location ".wav" = true)
         \/ (exists n dirpath name,
               fs location = Some n
               /\ file_in location n dirpath name
               /\ endswith name ".wav" = true
               /\ p = os_path_join dirpath name))
  /\ (fs location = Some File ->
      Walker._recordings (Walker.init fs location)
      = if endswith location ".wav" then [location] else [])
  /\ (forall s : string,
        endswith s ".wav" = true <-> exists t, s = t +:+ ".wav")
  /\ Walker._recordings (Walker.init example_fs "rec")
     = ["rec/a.wav"; "rec/sub/b.wav"]%string.
Proof.
  split; [|split; [|split]].
  - intros p. rewrite init_recordings, in_app_iff.
    unfold Walker.isfile, Walker.os_walk.
    destruct (fs location) as [n|] eqn:Efs.
    + rewrite wav_paths_walk. split.
      * intros [Hroot|(dirpath & name & Hf & Hw & ->)].
        -- left. destruct n; [|destruct Hroot].
           destruct (endswith location ".wav"); [|destruct Hroot].
           destruct Hroot as [<-|[]]. auto.
        -- right. now exists n, dirpath, name.
      * intros [(-> & [= ->] & Hw)|(n' & dirpath & name & [= <-] & Hf & Hw & ->)].
        -- left. rewrite Hw. now left.
        -- right. now exists dirpath, name.
    + split.
      * intros [[]|[]].
      * intros [(_ & [=] & _)|(n & _ & _ & [=] & _)].
  - intros Efs. rewrite init_recordings.
    unfold Walker.isfile, Walker.os_walk. rewrite Efs. cbn [walk wav_paths flat_map].
    now rewrite app_nil_r.
  - intros s. apply endswith_suffix.
  - vm_compute. reflexivity.
Qed.

Lemma perform_recordings (c : Walker.call) (self : Walker.t) (w : world) :
  Walker._recordings (snd (fst (Walker.perform c self w)))
  = Walker._recordings self ++ Walker.appended [c].
Proof.
  destruct c as [| |pos|x]; cbn [Walker.appended flat_map];
    rewrite ?app_nil_r; try reflexivity.
  unfold Walker.perform, Walker.read_wave_next.
  destruct (Walker._recordings self !! pos) as [name|]; [|reflexivity].
  unfold bind, wav_read. destruct (files w !! name); reflexivity.
Qed.

Lemma appended_cons (c : Walker.call) (cs : list Walker.call) :
  Walker.appended (c :: cs) = Walker.appended [c] ++ Walker.appended cs.
Proof. unfold Walker.appended. cbn [flat_map]. now rewrite app_nil_r. Qed.

Lemma perform_all_recordings (cs : list Walker.call) :
  forall (self : Walker.t) (w : world),
    Walker._recordings (fst (Walker.perform_all cs self w))
    = Walker._recordings self ++ Walker.appended cs.
Proof.
  induction cs as [|c cs IH]; intros self w.
  - cbn. now rewrite app_nil_r.
  - cbn [Walker.perform_all].
    pose proof (perform_recordings c self w) as Hc.
    destruct (Walker.perform c self w) as [[ans self'] w']. cbn [fst snd] in Hc.
    rewrite IH, Hc, (appended_cons c cs). symmetry. apply List.app_assoc.
Qed.

Lemma appended_methods (cs : list Walker.call) :
  forallb Walker.is_method cs = true -> Walker.appended cs = [].
Proof.
  induction cs as [|c cs IH]; [reflexivity|]. cbn [forallb].
  intros H. apply andb_true_iff in H as [Hc Hcs].
  rewrite (appended_cons c cs), (IH Hcs), app_nil_r.
  now destruct c.
Qed.

Lemma walker_eq (s1 s2 : Walker.t) :
  Walker._recordings s1 = Walker._recordings s2 -> s1 = s2.
Proof. destruct s1, s2. cbn. now intros ->. Qed.

(** C9 (amended).  No method of a walker changes its list of entries: after
    any sequence of method calls (listing, counting, advancing a
    [read_wave] generator) the walker is as it was built and the list
    operation lets the client read the sequence it read at first.  The list
    operation hands out the list object itself, not a copy: what the client
    appends to it is appended to the entries, and nothing else ever changes
    them.  Whatever the client did, every call of the list operation
    returns the same list object, and [count] is the length of that list as
    it is at the moment of the call. *)
Theorem Walker_list_stable (self : Walker.t) (cs : list Walker.call) (w : world) :
  let self' := fst (Walker.perform_all cs self w) in
  (forallb Walker.is_method cs = true ->
   self' = self
   /\ fst (fst (Walker.perform Walker.CallList self' w))
      = fst (fst (Walker.perform Walker.CallList self w)))
  /\ Walker._recordings self' = Walker._recordings self ++ Walker.appended cs
  /\ fst (Walker.get_recordings_list self') = fst (Walker.get_recordings_list self)
  /\ fst (Walker.count self')
     = len (Walker.deref (fst (Walker.get_recordings_list self')) self')
  /\ snd (Walker.get_recordings_list self') = self'
  /\ snd (Walker.count self') = self'.
Proof.
  intros self'.
  pose proof (perform_all_recordings cs self w) as Hrec. fold self' in Hrec.
  split; [|repeat split; exact Hrec].
  intros Hm. rewrite (appended_methods cs Hm), app_nil_r in Hrec.
  apply walker_eq in Hrec. rewrite Hrec. now split.
Qed.

(** C9, as stated, fails: the list operation returns the list object of
    the walker, so that a client that appends to the list it was given
    changes the entries.  On a walker with the single entry [a.wav], the
    list operation gives [[a.wav]]; once the client has appended [x.txt] to
    that list, the list operation gives [[a.wav; x.txt]] and [count] has
    gone from 1 to 2. *)
Lemma entries_changed_by_client :
  fst (fst (Walker.perform Walker.CallList walker_one w_file))
  = Walker.AList ["a.wav"%string]
  /\ fst (fst (Walker.perform Walker.CallList
                 (fst (Walker.perform_all
                         [Walker.CallList; Walker.ClientAppend "x.txt"]
                         walker_one w_file))
                 w_file))
     = Walker.AList ["a.wav"%string; "x.txt"%string]
  /\ fst (Walker.count walker_one) = 1
  /\ fst (Walker.count
            (fst (Walker.perform_all
                    [Walker.CallList; Walker.ClientAppend "x.txt"]
                    walker_one w_file)))
     = 2
  /\ Walker._recordings
       (fst (Walker.perform_all
               [Walker.CallList; Walker.ClientAppend "x.txt"]
               walker_one w_file))
     <> Walker._recordings walker_one.
Proof. repeat split; try reflexivity. discriminate. Qed.

(** * Further properties *)

(** ** read: failures, frame and range *)

Lemma read_eval (path : string) (w : world) (f : wavfile) :
  files w !! path = Some f ->
  wav_data f <> [] ->
  read path w
  = (inr (wav_rate f, fresh (dom (heap w))),
     World (<[fresh (dom (heap w)) :=
               map (fun x => fdiv x (Fin (inject_Z (peakZ (wav_data f)))))
                   (astype_float32 (wav_data f))]> (heap w))
           (dirs w) (files w)).
Proof.
  intros Hf Hne. unfold read.
  erewrite bind_inr; [|unfold wav_read; rewrite Hf; reflexivity].
  erewrite bind_inr; [|reflexivity].
  erewrite bind_inr; [|unfold load; cbn [heap]; rewrite lookup_insert_eq; reflexivity].
  erewrite bind_inr; [|rewrite (np_max_abs_raw _ Hne); reflexivity].
  erewrite bind_inr; [|reflexivity].
  unfold ret. cbn [heap dirs files]. now rewrite insert_insert_eq.
Qed.

Lemma read_missing (path : string) (w : world) :
  files w !! path = None -> read path w = (inl IOError, w).
Proof.
  intros Hf. unfold read. erewrite bind_inl; [reflexivity|].
  unfold wav_read. now rewrite Hf.
Qed.

Lemma read_empty (path : string) (w : world) (f : wavfile) :
  files w !! path = Some f ->
  wav_data f = [] ->
  read path w
  = (inl ValueError,
     World (<[fresh (dom (heap w)) := []]> (heap w)) (dirs w) (files w)).
Proof.
  intros Hf Hnil. unfold read.
  erewrite bind_inr; [|unfold wav_read; rewrite Hf; reflexivity].
  erewrite bind_inr; [|reflexivity].
  erewrite bind_inr; [|unfold load; cbn [heap]; rewrite lookup_insert_eq; reflexivity].
  erewrite bind_inl; [reflexivity|]. now rewrite Hnil.
Qed.

(** X1.  When no file lies at the path, [read] raises [IOError] and leaves
    everything as it was.  When a wave file lies there, [read] raises
    exactly when the file holds no sample at all, and then [ValueError]
    (the maximum of an empty array); a file with at least one sample,
    silent or not, is read without an exception, into a new array. *)
Theorem read_outcome (path : string) (w : world) :
  (files w !! path = None -> read path w = (inl IOError, w))
  /\ (forall f : wavfile,
        files w !! path = Some f ->
        (fst (read path w) = inl ValueError <-> wav_data f = [])
        /\ (forall e, fst (read path w) = inl e -> e = ValueError)
        /\ (wav_data f <> [] ->
            exists l : loc,
              fst (read path w) = inr (wav_rate f, l) /\ heap w !! l = None)).
Proof.
  split; [apply read_missing|]. intros f Hf.
  destruct (wav_data f) as [|z raw] eqn:Hd.
  - rewrite (read_empty path w f Hf Hd). cbn.
    split; [tauto|]. split; [now intros e [= <-] | congruence].
  - rewrite (read_eval path w f Hf) by (rewrite Hd; discriminate). cbn.
    split; [split; discriminate|]. split; [discriminate|]. intros _.
    eexists. split; [reflexivity | apply fresh_loc].
Qed.

(** X2.  Whether it returns or raises, [read] writes nothing to the file
    system and leaves every array that existed before the call as it
    was. *)
Theorem read_frame (path : string) (w : world) :
  dirs (snd (read path w)) = dirs w
  /\ files (snd (read path w)) = files w
  /\ forall (l : loc) (b : list float),
       heap w !! l = Some b -> heap (snd (read path w)) !! l = Some b.
Proof.
  assert (forall (l : loc) (b a : list float),
            heap w !! l = Some b ->
            <[fresh (dom (heap w)) := a]> (heap w) !! l = Some b) as Hkeep.
  { intros l b a Hl. rewrite lookup_insert_ne; [exact Hl|].
    intros E. pose proof (fresh_loc w) as Hf. rewrite E in Hf. congruence. }
  destruct (files w !! path) as [f|] eqn:Hf.
  - destruct (wav_data f) as [|z raw] eqn:Hd.
    + rewrite (read_empty path w f Hf Hd). cbn. auto.
    + rewrite (read_eval path w f Hf) by (rewrite Hd; discriminate). cbn. auto.
  - rewrite (read_missing path w Hf). cbn. auto.
Qed.

Lemma div_by_peak (z p : Z) :
  0 < p ->
  let q := Qred (inject_Z z / inject_Z p) in
  (0 < z -> (0 < q)%Q) /\ (z < 0 -> (q < 0)%Q) /\ (z = 0 -> (q == 0)%Q).
Proof.
  intros Hp q. unfold q.
  assert (0 < inject_Z p)%Q as HpQ.
  { replace 0%Q with (inject_Z 0) by reflexivity. now rewrite <- Zlt_Qlt. }
  split; [|split]; intros Hz; rewrite Qred_correct.
  - apply Qlt_shift_div_l; [exact HpQ|]. rewrite Qmult_0_l.
    replace 0%Q with (inject_Z 0) by reflexivity. now rewrite <- Zlt_Qlt.
  - apply Qlt_shift_div_r; [exact HpQ|]. rewrite Qmult_0_l.
    replace 0%Q with (inject_Z 0) by reflexivity. now rewrite <- Zlt_Qlt.
  - subst z. unfold Qdiv. now rewrite Qmult_0_l.
Qed.

Lemma div_by_peak_le (z1 z2 p : Z) :
  0 < p -> z1 <= z2 ->
  (Qred (inject_Z z1 / inject_Z p) <= Qred (inject_Z z2 / inject_Z p))%Q.
Proof.
  intros Hp Hz. rewrite !Qred_correct. unfold Qdiv.
  apply Qmult_le_compat_r; [now rewrite <- Zle_Qle|].
  apply Qinv_le_0_compat.
  replace 0%Q with (inject_Z 0) by reflexivity. rewrite <- Zle_Qle. lia.
Qed.

(** X3.  When the file holds at least one non-zero sample, the array that
    [read] returns is new and has one sample per decoded sample.  Each of
    its samples is a finite number between -1 and 1 with the sign of the
    decoded sample: positive, negative or zero as that sample is; a sample
    of largest magnitude becomes 1 or -1; and the order of the samples is
    kept: a larger decoded sample never gives a smaller one. *)
Theorem read_range (path : string) (w : world) (f : wavfile) :
  files w !! path = Some f ->
  (exists z, In z (wav_data f) /\ z <> 0) ->
  exists (l : loc) (a : list float),
    fst (read path w) = inr (wav_rate f, l)
    /\ heap w !! l = None
    /\ heap (snd (read path w)) !! l = Some a
    /\ length a = length (wav_data f)
    /\ (forall (i : nat) (z : Z),
          wav_data f !! i = Some z ->
          exists q : Q,
            a !! i = Some (Fin q)
            /\ (-1 <= q)%Q /\ (q <= 1)%Q
            /\ (0 < z -> (0 < q)%Q)
            /\ (z < 0 -> (q < 0)%Q)
            /\ (z = 0 -> (q == 0)%Q)
            /\ (Z.abs z = peakZ (wav_data f) -> (Qabs q == 1)%Q))
    /\ (forall (i j : nat) (zi zj : Z) (qi qj : Q),
          wav_data f !! i = Some zi -> wav_data f !! j = Some zj ->
          a !! i = Some (Fin qi) -> a !! j = Some (Fin qj) ->
          zi <= zj -> (qi <= qj)%Q).
Proof.
  intros Hf (z0 & Hz0 & Hnz).
  assert (wav_data f <> []) as Hne by (intros E; rewrite E in Hz0; destruct Hz0).
  assert (0 < peakZ (wav_data f)) as Hpos.
  { pose proof (peakZ_ge _ _ Hz0). lia. }
  rewrite (read_eval path w f Hf Hne). cbn [fst snd heap].
  assert (forall (i : nat) (z : Z),
            wav_data f !! i = Some z ->
            map (fun x => fdiv x (Fin (inject_Z (peakZ (wav_data f)))))
                (astype_float32 (wav_data f)) !! i
            = Some (Fin (Qred (inject_Z z / inject_Z (peakZ (wav_data f))))))
    as Hlook.
  { intros i z Hi. unfold astype_float32.
    rewrite map_map, list_lookup_fmap, Hi.
    cbn [fmap option_fmap option_map fdiv].
    assert (Qzero (inject_Z (peakZ (wav_data f))) = false) as ->;
      [|reflexivity].
    apply Qzero_false. unfold Qeq. simpl. lia. }
  eexists _, _. split; [reflexivity|]. split; [apply fresh_loc|].
  split; [apply lookup_insert_eq|]. split; [|split].
  - unfold astype_float32. now rewrite !length_map.
  - intros i z Hi. eexists. split; [exact (Hlook i z Hi)|].
    assert (In z (wav_data f)) as Hin.
    { apply list_elem_of_In. eapply list_elem_of_lookup_2. exact Hi. }
    pose proof (Qabs_div_le_1 z _ Hpos (peakZ_ge _ _ Hin)) as Hle.
    apply Qabs_Qle_condition in Hle. destruct Hle as [Hlo Hhi].
    destruct (div_by_peak z _ Hpos) as (Hp & Hn & Hz).
    split; [exact Hlo|]. split; [exact Hhi|]. split; [exact Hp|].
    split; [exact Hn|]. split; [exact Hz|].
    intros Hpeak. now apply Qabs_div_eq_1.
  - intros i j zi zj qi qj Hi Hj Hai Haj Hz.
    rewrite (Hlook i zi Hi) in Hai. rewrite (Hlook j zj Hj) in Haj.
    injection Hai as <-. injection Haj as <-.
    now apply div_by_peak_le.
Qed.

(** ** write: what a call that returns has done *)

Lemma adjust_bounds (i n : Z) : 0 <= n -> 0 <= adjust i n <= n.
Proof. intros Hn. destruct (adjust_cases i n). lia. Qed.

(** A slice assignment never resizes its destination. *)
Lemma setslice_length {A} (a src a' : list A) (start stop : Z) :
  setslice a start stop src = Some a' -> length a' = length a.
Proof.
  unfold setslice.
  pose proof (adjust_bounds start (len a) ltac:(unfold len; lia)) as Hlo.
  pose proof (adjust_bounds stop (len a) ltac:(unfold len; lia)) as Hhi.
  set (lo := adjust start (len a)) in *. set (hi := adjust stop (len a)) in *.
  assert (forall x : list A, length x = Z.to_nat (hi - lo) ->
            length (take (Z.to_nat lo) a ++ x
                      ++ drop (Z.to_nat lo + Z.to_nat (hi - lo)) a)
            = length a) as Hlen.
  { intros x Hx. rewrite !length_app, length_take, length_drop, Hx.
    unfold len in *. lia. }
  destruct (length src =? Z.to_nat (hi - lo))%nat eqn:E.
  - intros [= <-]. apply Hlen. now apply Nat.eqb_eq.
  - destruct src as [|x [|y src]]; try discriminate.
    intros [= <-]. apply Hlen. apply length_replicate.
Qed.

Lemma copy_segments_length (sample new_sample : loc) (segments : list (Z * Z)) :
  forall (idx : Z) (w : world) (dst : list float),
    heap w !! new_sample = Some dst ->
    exists dst',
      heap (snd (copy_segments sample new_sample segments idx w)) !! new_sample
      = Some dst'
      /\ length dst' = length dst.
Proof.
  induction segments as [|[s e] rest IH]; intros idx w dst Hdst.
  - exists dst. split; [exact Hdst | reflexivity].
  - cbn [copy_segments]. destruct (heap w !! sample) as [src|] eqn:Hs.
    + rewrite (bind_inr _ _ _ _ _ (load_some _ _ _ Hs)).
      rewrite (bind_inr _ _ _ _ _ (load_some _ _ _ Hdst)).
      unfold bind at 1.
      destruct (setslice dst idx (idx + (e - s)) (getslice src s e))
        as [dst1|] eqn:E2; cbn [lift_opt ret raise].
      * apply setslice_length in E2.
        rewrite (bind_inr _ _ _ tt
                   (World (<[new_sample := dst1]> (heap w)) (dirs w) (files w)))
          by reflexivity.
        destruct (IH (idx + (e - s))
                    (World (<[new_sample := dst1]> (heap w)) (dirs w) (files w))
                    dst1) as (dst' & Hd & Hl).
        { cbn. apply lookup_insert_eq. }
        exists dst'. split; [exact Hd | congruence].
      * now exists dst.
    + erewrite bind_inl; [|unfold load; rewrite Hs; reflexivity].
      now exists dst.
Qed.

(** Whatever the segments, the array that the extraction returns has the
    total length of the segments. *)
Lemma extract_length (sample : loc) (segments : list (Z * Z)) (w w' : world)
    (l : loc) :
  segments <> [] ->
  extract sample segments w = (inr l, w') ->
  l = fresh (dom (heap w))
  /\ exists out, heap w' !! l = Some out /\ len out = total_length segments.
Proof.
  intros Hne H. destruct segments as [|se rest]; [congruence|].
  unfold extract in H. fold (total_length (se :: rest)) in H.
  unfold np_zeros in H.
  destruct (total_length (se :: rest) <? 0) eqn:E; [discriminate|].
  unfold bind at 1 in H. cbn [alloc] in H.
  set (new := fresh (dom (heap w))) in *.
  set (w1 := World (<[new := replicate (Z.to_nat (total_length (se :: rest))) (Fin 0)]>
                      (heap w)) (dirs w) (files w)) in *.
  destruct (copy_segments_length sample new (se :: rest) 0 w1
              (replicate (Z.to_nat (total_length (se :: rest))) (Fin 0)))
    as (dst' & Hd & Hl).
  { cbn. apply lookup_insert_eq. }
  unfold bind in H.
  destruct (copy_segments sample new (se :: rest) 0 w1) as [[e1|[]] w2];
    [discriminate|].
  cbn in H. injection H as <- <-. split; [reflexivity|].
  exists dst'. split; [exact Hd|].
  unfold len. rewrite Hl, length_replicate. lia.
Qed.

Lemma output_path_eval (path output_dir : string) (w : world) :
  exists ds : gset string,
    output_path path output_dir w
    = (inr (if String.eqb output_dir "" then path
            else os_path_join output_dir (os_path_basename path)),
       World (heap w) ds (files w))
    /\ (output_dir = ""%string -> ds = dirs w)
    /\ (output_dir ∈ dirs w \/ is_Some (files w !! output_dir) -> ds = dirs w)
    /\ (output_dir <> ""%string -> output_dir ∉ dirs w ->
        files w !! output_dir = None -> ds = {[output_dir]} ∪ dirs w).
Proof.
  unfold output_path. destruct (String.eqb_spec output_dir "") as [->|Hne].
  - exists (dirs w). destruct w. repeat split; auto; done.
  - unfold bind, os_path_exists.
    destruct (bool_decide (output_dir ∈ dirs w)) eqn:E1;
      [|destruct (bool_decide (is_Some (files w !! output_dir))) eqn:E2];
      cbn.
    + exists (dirs w). destruct w. repeat split; auto; try congruence.
      intros _ Hnot. apply bool_decide_eq_true in E1. contradiction.
    + exists (dirs w). destruct w. repeat split; auto; try congruence.
      intros _ _ Hnone. apply bool_decide_eq_true in E2.
      cbn in *. rewrite Hnone in E2. now destruct E2.
    + exists ({[output_dir]} ∪ dirs w). repeat split; auto; try congruence.
      intros [Hin|Hin].
      * apply bool_decide_eq_false in E1. contradiction.
      * apply bool_decide_eq_false in E2. contradiction.
Qed.

Lemma write_returns (pow10 : Q -> Q) (path : string) (rate : Z)
    (sample : loc) (dB : Q) (output_dir : string) (segments : list (Z * Z))
    (w w' : world) :
  write pow10 path rate sample dB output_dir segments w = (inr tt, w') ->
  exists (l : loc) (w1 : world) (a0 : list float) (peak : float),
    extract sample segments w = (inr l, w1)
    /\ heap w1 !! l = Some a0
    /\ np_max a0 = Some peak
    /\ let a := map (fun x => fmul x (fdiv (Fin (pow10 (dB / 10)%Q)) peak)) a0 in
       heap w' = <[l := a]> (heap w1)
       /\ dirs w' = dirs (snd (output_path path output_dir w))
       /\ files w'
          = <[(if String.eqb output_dir "" then path
               else os_path_join output_dir (os_path_basename path))
              := Wav rate (map astype_int16 a)]> (files w).
Proof.
  unfold write. intros H.
  unfold bind at 1 in H.
  destruct (extract sample segments w) as [[e1|l] w1] eqn:E1; [discriminate|].
  destruct (keeps_fs_extract sample segments w) as [Hd1 Hf1].
  rewrite E1 in Hd1, Hf1. cbn in Hd1, Hf1.
  destruct (output_path_eval path output_dir w1) as (ds1 & Hp1 & _).
  destruct (output_path_eval path output_dir w) as (ds & Hp & _).
  assert (ds1 = ds) as ->.
  { clear H.
    apply (f_equal (fun x => dirs (snd x))) in Hp1, Hp. cbn [snd dirs] in Hp1, Hp.
    rewrite <- Hp1, <- Hp. unfold output_path.
    destruct (String.eqb output_dir ""); [exact Hd1|].
    unfold bind, os_path_exists. rewrite Hd1, Hf1.
    destruct (_ || _); cbn; [exact Hd1 | now rewrite Hd1]. }
  rewrite (bind_inr _ _ _ _ _ Hp1) in H.
  unfold bind at 1 in H. unfold scale in H.
  unfold bind at 1 in H. unfold load at 1 in H. cbn [heap] in H.
  destruct (heap w1 !! l) as [a0|] eqn:Ea0; [|discriminate].
  cbn [lift_opt ret] in H.
  unfold bind at 1 in H.
  destruct (np_max a0) as [peak|] eqn:Emax; [|discriminate].
  cbn [lift_opt ret store heap dirs files] in H.
  erewrite bind_inr in H;
    [|unfold load; cbn [heap]; rewrite lookup_insert_eq; reflexivity].
  cbn in H. injection H as <-.
  exists l, w1, a0, peak. split; [reflexivity|]. split; [exact Ea0|].
  split; [exact Emax|]. cbn. rewrite Hp, Hf1. auto.
Qed.

(** X4.  A call to [write] that returns has written exactly one file and
    touched no other: the file lies at [path], or at
    [join(output_dir, basename(path))] when an output directory is given;
    it carries the rate that was passed and one 16-bit sample per sample of
    the buffer, that is, as many as the caller's array holds when there are
    no segments and as many as the segment lengths add up to otherwise,
    whether the segments are well formed or not. *)
Theorem write_writes_one_file (pow10 : Q -> Q) (path : string) (rate : Z)
    (sample : loc) (dB : Q) (output_dir : string) (segments : list (Z * Z))
    (w w' : world) :
  write pow10 path rate sample dB output_dir segments w = (inr tt, w') ->
  exists data : list Z,
    files w'
    = <[(if String.eqb output_dir "" then path
         else os_path_join output_dir (os_path_basename path))
        := Wav rate data]> (files w)
    /\ Forall (fun z => -32768 <= z <= 32767) data
    /\ (segments = [] ->
        exists a, heap w !! sample = Some a /\ length data = length a)
    /\ (segments <> [] -> len data = total_length segments).
Proof.
  intros H.
  destruct (write_returns _ _ _ _ _ _ _ _ _ H)
    as (l & w1 & a0 & peak & Hex & Ha0 & _ & _ & _ & Hfiles).
  eexists. split; [exact Hfiles|]. split; [|split].
  - rewrite Forall_map. apply Forall_forall. intros x _.
    apply astype_int16_range.
  - intros ->. cbn in Hex. injection Hex as <- <-.
    exists a0. split; [exact Ha0|]. now rewrite !length_map.
  - intros Hne. destruct (extract_length _ _ _ _ _ Hne Hex) as (_ & out & Hout & Hlen).
    assert (out = a0) as -> by congruence.
    unfold len in *. now rewrite !length_map.
Qed.

(** ** write: evaluation after the extraction *)

Lemma write_eval (pow10 : Q -> Q) (path : string) (rate : Z)
    (sample : loc) (dB : Q) (output_dir : string) (segments : list (Z * Z))
    (w w1 : world) (l : loc) (a0 : list float) :
  extract sample segments w = (inr l, w1) ->
  heap w1 !! l = Some a0 ->
  let ds := dirs (snd (output_path path output_dir w1)) in
  let p := if String.eqb output_dir "" then path
           else os_path_join output_dir (os_path_basename path) in
  write pow10 path rate sample dB output_dir segments w
  = match np_max a0 with
    | None => (inl ValueError, World (heap w1) ds (files w1))
    | Some peak =>
        let a := map (fun x => fmul x (fdiv (Fin (pow10 (dB / 10)%Q)) peak)) a0 in
        (inr tt,
         World (<[l := a]> (heap w1)) ds
               (<[p := Wav rate (map astype_int16 a)]> (files w1)))
    end.
Proof.
  intros Hex Ha0 ds p. unfold write.
  rewrite (bind_inr _ _ _ _ _ Hex).
  destruct (output_path_eval path output_dir w1) as (ds1 & Hp & _).
  assert (ds = ds1) as -> by (unfold ds; now rewrite Hp).
  rewrite (bind_inr _ _ _ _ _ Hp). fold p.
  destruct (np_max a0) as [peak|] eqn:Emax.
  - erewrite bind_inr; [|apply (scale_eval pow10 _ l a0 dB peak); assumption].
    erewrite bind_inr;
      [|unfold load; cbn [heap]; rewrite lookup_insert_eq; reflexivity].
    reflexivity.
  - erewrite bind_inl; [reflexivity|].
    unfold scale. erewrite bind_inr; [|apply load_some; exact Ha0].
    erewrite bind_inl; [reflexivity|]. now rewrite Emax.
Qed.

Lemma extract_valid (w : world) (sample : loc) (b : list float)
    (segments : list (Z * Z)) :
  heap w !! sample = Some b ->
  segments <> [] ->
  Forall (valid_segment (len b)) segments ->
  extract sample segments w
  = (inr (fresh (dom (heap w))),
     World (<[fresh (dom (heap w)) :=
               flat_map (fun se => getslice b (fst se) (snd se)) segments]>
              (heap w))
           (dirs w) (files w)).
Proof.
  intros Hb Hne Hvalid.
  set (l := fresh (dom (heap w))).
  assert (sample <> l) as Hneq.
  { intros E. pose proof (fresh_loc w) as Hf. fold l in Hf. congruence. }
  pose proof (total_length_nonneg _ _ Hvalid) as Hnn.
  destruct segments as [|se rest]; [congruence|].
  unfold extract. fold (total_length (se :: rest)).
  erewrite bind_inr; cycle 1.
  { unfold np_zeros. destruct (total_length (se :: rest) <? 0) eqn:E; [lia|].
    reflexivity. }
  fold l.
  erewrite bind_inr; cycle 1.
  { apply (copy_segments_valid b sample l Hneq (se :: rest) 0
             (replicate (Z.to_nat (total_length (se :: rest))) (Fin 0))).
    - cbn [heap]. now rewrite lookup_insert_ne by (intros E; now apply Hneq).
    - cbn [heap]. now rewrite lookup_insert_eq.
    - exact Hvalid.
    - lia.
    - unfold len. rewrite length_replicate. lia. }
  unfold ret. cbn [heap dirs files]. rewrite insert_insert_eq.
  do 3 f_equal. change (Z.to_nat 0) with 0%nat. rewrite take_0, app_nil_l.
  rewrite drop_ge, app_nil_r; [reflexivity|].
  rewrite length_replicate. lia.
Qed.

Lemma np_max_none (a : list float) : np_max a = None <-> a = [].
Proof. destruct a; split; intros H; try discriminate; reflexivity. Qed.

Lemma output_path_exists (path output_dir : string) (w : world) :
  output_dir <> ""%string ->
  fst (os_path_exists output_dir (snd (output_path path output_dir w)))
  = inr true.
Proof.
  intros Hne. destruct (output_path_eval path output_dir w)
    as (ds & Hp & _ & Hold & Hnew).
  rewrite Hp. cbn.
  destruct (decide (output_dir ∈ dirs w)) as [Hin|Hnin].
  - pose proof (Hold (or_introl Hin)) as E. rewrite E.
    now rewrite bool_decide_eq_true_2.
  - destruct (decide (is_Some (files w !! output_dir))) as [Hs|Hn].
    + pose proof (Hold (or_intror Hs)) as E. rewrite E.
      rewrite (bool_decide_eq_true_2 (is_Some _)) by exact Hs.
      now rewrite orb_true_r.
    + assert (files w !! output_dir = None) as Hnone
        by (now apply eq_None_not_Some).
      pose proof (Hnew Hne Hnin Hnone) as E. rewrite E.
      rewrite bool_decide_eq_true_2; [reflexivity|].
      apply elem_of_union_l. now apply elem_of_singleton.
Qed.

(** X5.  A [write] that returns had at least one sample to scale: the
    caller's array was not empty, or the well-formed segments had a
    positive total length.  On an empty buffer [write] never returns and
    writes no file.  Without an output directory it raises [ValueError]
    (the maximum of an empty array) and leaves the directories as they
    were; with one, when that [ValueError] is raised the directory exists:
    it has been created before the failure if it was not there. *)
Theorem write_empty_buffer (pow10 : Q -> Q) (path : string) (rate : Z)
    (sample : loc) (dB : Q) (output_dir : string) (w : world) (b : list float) :
  heap w !! sample = Some b ->
  let run := fun segments =>
    write pow10 path rate sample dB output_dir segments w in
  (fst (run []) = inr tt -> b <> [])
  /\ (forall segments,
        segments <> [] ->
        Forall (valid_segment (len b)) segments ->
        fst (run segments) = inr tt -> 0 < total_length segments)
  /\ (forall segments,
        (segments = [] /\ b = [])
        \/ (segments <> [] /\ Forall (valid_segment (len b)) segments
            /\ total_length segments = 0) ->
        fst (run segments) <> inr tt
        /\ files (snd (run segments)) = files w
        /\ (output_dir = ""%string ->
            fst (run segments) = inl ValueError
            /\ dirs (snd (run segments)) = dirs w)
        /\ (fst (run segments) = inl ValueError ->
            output_dir <> ""%string ->
            fst (os_path_exists output_dir (snd (run segments))) = inr true)).
Proof.
  intros Hb run.
  assert (forall segments l w1 a0,
            extract sample segments w = (inr l, w1) ->
            heap w1 !! l = Some a0 ->
            files w1 = files w -> dirs w1 = dirs w ->
            (fst (run segments) = inr tt -> a0 <> [])
            /\ (a0 = [] ->
                fst (run segments) <> inr tt
                /\ files (snd (run segments)) = files w
                /\ (output_dir = ""%string ->
                    fst (run segments) = inl ValueError
                    /\ dirs (snd (run segments)) = dirs w)
                /\ (fst (run segments) = inl ValueError ->
                    output_dir <> ""%string ->
                    fst (os_path_exists output_dir (snd (run segments)))
                    = inr true))) as Hgen.
  { intros segments l w1 a0 Hex Ha0 Hf Hd. unfold run.
    rewrite (write_eval pow10 path rate sample dB output_dir segments w w1 l a0
               Hex Ha0).
    destruct a0 as [|x xs]; cbn [np_max fst snd files dirs].
    - split; [discriminate|]. intros _.
      split; [discriminate|]. split; [exact Hf|]. split.
      + intros ->. split; [reflexivity | exact Hd].
      + intros _ Hne.
        pose proof (output_path_exists path output_dir w1 Hne) as He.
        destruct (output_path_eval path output_dir w1) as (ds & Hp & _).
        rewrite Hp in *. exact He.
    - split; [discriminate|]. discriminate. }
  assert (forall segments,
            segments <> [] -> Forall (valid_segment (len b)) segments ->
            exists l w1 a0,
              extract sample segments w = (inr l, w1)
              /\ heap w1 !! l = Some a0 /\ files w1 = files w
              /\ dirs w1 = dirs w
              /\ len a0 = total_length segments) as Hseg.
  { intros segments Hne Hvalid. eexists _, _, _.
    split; [apply (extract_valid w sample b segments Hb Hne Hvalid)|].
    cbn. split; [apply lookup_insert_eq|]. split; [reflexivity|].
    split; [reflexivity|]. now apply len_flat_map_getslice. }
  split; [|split].
  - apply (Hgen [] sample w b); [reflexivity | exact Hb | reflexivity | reflexivity].
  - intros segments Hne Hvalid Hret.
    destruct (Hseg segments Hne Hvalid)
      as (l & w1 & a0 & Hex & Ha0 & Hf & Hd & Hlen).
    destruct (Hgen segments l w1 a0 Hex Ha0 Hf Hd) as [Hnonempty _].
    specialize (Hnonempty Hret).
    unfold len in Hlen. destruct a0; [congruence | cbn in Hlen; lia].
  - intros segments [[-> ->]|(Hne & Hvalid & Hzero)].
    + apply (Hgen [] sample w []);
        [reflexivity | exact Hb | reflexivity | reflexivity | reflexivity].
    + destruct (Hseg segments Hne Hvalid)
        as (l & w1 & a0 & Hex & Ha0 & Hf & Hd & Hlen).
      apply (Hgen segments l w1 a0 Hex Ha0 Hf Hd).
      unfold len in Hlen. destruct a0; [reflexivity | cbn in Hlen; lia].
Qed.

(** ** The output path *)

Lemma has_slash_basename (p : string) : has_slash (os_path_basename p) = false.
Proof.
  induction p as [|c p IH]; [reflexivity|]. cbn [os_path_basename].
  destruct (has_slash p) eqn:Hs; [exact IH|].
  destruct (Ascii.eqb c "/") eqn:Hc; [exact Hs|].
  cbn [has_slash]. now rewrite Hc, Hs.
Qed.

Lemma basename_no_slash (f : string) :
  has_slash f = false -> os_path_basename f = f.
Proof.
  destruct f as [|c f]; [reflexivity|]. cbn [has_slash os_path_basename].
  intros H. apply orb_false_iff in H as [Hc Hs]. now rewrite Hs, Hc.
Qed.

Lemma has_slash_app (d f : string) : has_slash (d +:+ String "/" f) = true.
Proof.
  induction d as [|c d IH]; [reflexivity|].
  change (String c d +:+ String "/" f) with (String c (d +:+ String "/" f)).
  cbn [has_slash]. rewrite IH. apply orb_true_r.
Qed.

Lemma basename_app_slash (d f : string) :
  has_slash f = false -> os_path_basename (d +:+ String "/" f) = f.
Proof.
  intros Hf. induction d as [|c d IH].
  - change ("" +:+ String "/" f) with (String "/" f).
    cbn [os_path_basename]. now rewrite Hf.
  - change (String c d +:+ String "/" f) with (String c (d +:+ String "/" f)).
    cbn [os_path_basename]. now rewrite has_slash_app.
Qed.

Lemma append_assoc (a b c : string) : (a +:+ b) +:+ c = a +:+ (b +:+ c).
Proof.
  induction a as [|x a IH]; [reflexivity|].
  change ((String x a +:+ b) +:+ c) with (String x ((a +:+ b) +:+ c)).
  change (String x a +:+ (b +:+ c)) with (String x (a +:+ (b +:+ c))).
  now rewrite IH.
Qed.

Lemma prefix_slash_no_slash (f : string) :
  has_slash f = false -> String.prefix "/" f = false.
Proof.
  destruct f as [|c f]; [reflexivity|]. cbn [has_slash String.prefix].
  intros H. apply orb_false_iff in H as [Hc _].
  destruct (ascii_dec "/" c) as [<-|Hne]; [discriminate | reflexivity].
Qed.

Lemma endswith_cons (c : ascii) (s suffix : string) :
  endswith s suffix = true -> endswith (String c s) suffix = true.
Proof.
  intros H. cbn [endswith]. now destruct (String.eqb (String c s) suffix).
Qed.

(** The base name is what follows the last slash: the path is a directory
    part, empty or ending with a slash, followed by the base name. *)
Lemma basename_split (path : string) :
  exists d : string,
    path = d +:+ os_path_basename path
    /\ (d = ""%string \/ endswith d "/" = true).
Proof.
  induction path as [|c p IH].
  - exists ""%string. split; [reflexivity | now left].
  - cbn [os_path_basename]. destruct (has_slash p) eqn:Hs.
    + destruct IH as (d & Hd & Hor). exists (String c d). split.
      * change (String c d +:+ os_path_basename p)
          with (String c (d +:+ os_path_basename p)).
        now rewrite <- Hd.
      * right. destruct Hor as [->|He]; [|now apply endswith_cons].
        change ("" +:+ os_path_basename p) with (os_path_basename p) in Hd.
        rewrite Hd, has_slash_basename in Hs. discriminate.
    + destruct (Ascii.eqb_spec c "/") as [->|Hc].
      * exists "/"%string. split; [reflexivity | now right].
      * exists ""%string. split; [reflexivity | now left].
Qed.

(** X6.  Under an output directory the file keeps only the base name of
    [path].  The base name is what follows the last slash of [path]: [path]
    is a directory part, empty or ending with a slash, followed by the base
    name, which holds no slash.  Lines 63-64 give the path
    [join(output_dir, basename(path))], which is [output_dir], a slash
    unless [output_dir] already ends with one, and the base name: the base
    name of the written path is the base name of [path]. *)
Theorem output_name_is_basename (output_dir path : string) (w : world) :
  (exists d : string,
     path = d +:+ os_path_basename path
     /\ (d = ""%string \/ endswith d "/" = true))
  /\ has_slash (os_path_basename path) = false
  /\ (output_dir <> ""%string ->
      fst (output_path path output_dir w)
      = inr (os_path_join output_dir (os_path_basename path))
      /\ os_path_basename (os_path_join output_dir (os_path_basename path))
         = os_path_basename path
      /\ (endswith output_dir "/" = false ->
          os_path_join output_dir (os_path_basename path)
          = output_dir +:+ "/" +:+ os_path_basename path)
      /\ (endswith output_dir "/" = true ->
          os_path_join output_dir (os_path_basename path)
          = output_dir +:+ os_path_basename path)).
Proof.
  split; [apply basename_split|].
  pose proof (has_slash_basename path) as Hf.
  split; [exact Hf|]. intros Hne.
  split.
  { destruct (output_path_eval path output_dir w) as (ds & Hp & _).
    rewrite Hp. cbn [fst]. apply String.eqb_neq in Hne. now rewrite Hne. }
  set (f := os_path_basename path) in *.
  unfold os_path_join. rewrite (prefix_slash_no_slash f Hf).
  apply String.eqb_neq in Hne. rewrite Hne. cbn [orb].
  split; [|split].
  - destruct (endswith output_dir "/") eqn:He.
    + apply endswith_suffix in He as (t & ->).
      rewrite append_assoc. change ("/" +:+ f) with (String "/" f).
      now apply basename_app_slash.
    + change ("/" +:+ f) with (String "/" f). now apply basename_app_slash.
  - intros He. now rewrite He.
  - intros He. now rewrite He.
Qed.

(** X7.  Asking for an output directory creates it when nothing exists at
    that path and changes nothing when something does; either way the path
    exists afterwards, no other directory, no file and no array is touched,
    and asking again changes nothing. *)
Theorem output_dir_created (path path' output_dir : string) (w : world) :
  output_dir <> ""%string ->
  let w' := snd (output_path path output_dir w) in
  fst (output_path path output_dir w)
  = inr (os_path_join output_dir (os_path_basename path))
  /\ heap w' = heap w
  /\ files w' = files w
  /\ fst (os_path_exists output_dir w') = inr true
  /\ (fst (os_path_exists output_dir w) = inr true -> w' = w)
  /\ (fst (os_path_exists output_dir w) = inr false ->
      dirs w' = {[output_dir]} ∪ dirs w)
  /\ snd (output_path path' output_dir w') = w'.
Proof.
  intros Hne w'.
  assert (forall v, fst (os_path_exists output_dir v) = inr true ->
                    snd (output_path path output_dir v) = v
                    /\ snd (output_path path' output_dir v) = v) as Hidem.
  { intros v Hv. unfold output_path.
    apply String.eqb_neq in Hne. rewrite Hne. unfold bind.
    unfold os_path_exists in *. cbn in Hv. injection Hv as ->. now cbn. }
  pose proof (output_path_exists path output_dir w Hne) as Hex. fold w' in Hex.
  destruct (output_path_eval path output_dir w) as (ds & Hp & _ & _ & Hnew).
  unfold w'. rewrite Hp. cbn [fst snd heap files dirs].
  apply String.eqb_neq in Hne as Hneb. rewrite Hneb.
  split; [reflexivity|]. split; [reflexivity|]. split; [reflexivity|].
  split; [|split; [|split]].
  - unfold w' in Hex. now rewrite Hp in Hex.
  - intros Hv. destruct (Hidem w Hv) as [E _]. now rewrite Hp in E.
  - intros Hv. unfold os_path_exists in Hv. cbn in Hv. injection Hv as Hv.
    apply orb_false_iff in Hv as [H1 H2].
    apply bool_decide_eq_false in H1, H2.
    apply Hnew; [exact Hne | exact H1 | now apply eq_None_not_Some].
  - unfold w' in Hex. rewrite Hp in Hex. cbn [snd] in Hex.
    now destruct (Hidem _ Hex) as [_ E].
Qed.

(** ** write: broadcast, frame and full-range segment *)

Lemma setslice_whole_single {A} (dst : list A) (k : Z) (x : A) :
  len dst = k -> 0 <= k ->
  setslice dst 0 (0 + k) [x] = Some (replicate (Z.to_nat k) x).
Proof.
  intros Hlen Hk. unfold setslice. rewrite Hlen, !adjust_in_range by lia.
  replace (Z.to_nat (0 + k - 0)) with (Z.to_nat k) by lia.
  change (Z.to_nat 0) with 0%nat. rewrite take_0, !app_nil_l.
  rewrite drop_ge by (unfold len in Hlen; lia). rewrite !app_nil_r.
  destruct (length [x] =? Z.to_nat k)%nat eqn:E; [|reflexivity].
  apply Nat.eqb_eq in E. cbn in E. now rewrite <- E.
Qed.

(** X8.  A single segment with [start <= end] whose source slice
    [sample[start:end]], once its bounds are clipped, holds exactly one
    sample is accepted whatever [end - start] is: that sample is repeated
    [end - start] times in the extracted buffer. *)
Theorem extract_broadcasts (w : world) (sample : loc) (b : list float)
    (s e : Z) (x : float) :
  heap w !! sample = Some b ->
  s <= e ->
  getslice b s e = [x] ->
  extract sample [(s, e)] w
  = (inr (fresh (dom (heap w))),
     World (<[fresh (dom (heap w)) := replicate (Z.to_nat (e - s)) x]> (heap w))
           (dirs w) (files w)).
Proof.
  intros Hb Hse Hx.
  assert (sample <> fresh (dom (heap w))) as Hneq.
  { intros E. pose proof (fresh_loc w) as Hf. rewrite <- E in Hf. congruence. }
  unfold extract. cbn [map fold_left fst snd]. rewrite Z.add_0_l.
  erewrite bind_inr; cycle 1.
  { unfold np_zeros. destruct (e - s <? 0) eqn:E; [lia | reflexivity]. }
  erewrite bind_inr; cycle 1.
  { cbn [copy_segments].
    erewrite bind_inr; cycle 1.
    { apply load_some. cbn [heap]. rewrite lookup_insert_ne; [exact Hb | auto]. }
    erewrite bind_inr; cycle 1.
    { apply load_some. cbn [heap]. apply lookup_insert_eq. }
    erewrite bind_inr; cycle 1.
    { rewrite Hx, setslice_whole_single; [reflexivity| |lia].
      unfold len. rewrite length_replicate. lia. }
    erewrite bind_inr; [|reflexivity]. reflexivity. }
  unfold ret. cbn [heap dirs files]. now rewrite insert_insert_eq.
Qed.

Lemma keeps_loc_copy_segments_other (l sample new_sample : loc)
    (segments : list (Z * Z)) :
  new_sample <> l ->
  forall idx, keeps_loc l (copy_segments sample new_sample segments idx).
Proof.
  intros Hne. induction segments as [|[s e] rest IH]; intros idx.
  - cbn. frame.
  - cbn [copy_segments]. frame.
Qed.

(** X9.  The only buffer that [write] can change is the one [sample]
    refers to, and it changes it only when there are no segments: every
    other buffer, and with segments the buffer of [sample] too, is the same
    after the call, whether [write] returns or raises.  (A location is a
    whole buffer: an array that is a view of the buffer of [sample] shares
    what happens to it.) *)
Theorem write_heap_frame (pow10 : Q -> Q) (path : string) (rate : Z)
    (sample : loc) (dB : Q) (output_dir : string) (segments : list (Z * Z))
    (w : world) (l : loc) (b : list float) :
  heap w !! l = Some b ->
  l <> sample \/ segments <> [] ->
  heap (snd (write pow10 path rate sample dB output_dir segments w)) !! l
  = Some b.
Proof.
  intros Hb Hor. destruct segments as [|se rest].
  - destruct Hor as [Hne|Hne]; [|congruence].
    assert (sample <> l) as Hne' by (intros E; now apply Hne).
    assert (keeps_loc l
              (p <- output_path path output_dir ;;
               scale pow10 sample dB ;;;
               a <- load sample ;;
               wav_write p rate (map astype_int16 a))) as Hk by frame.
    exact (eq_trans (Hk w) Hb).
  - clear Hor. set (new := fresh (dom (heap w))).
    assert (new <> l) as Hneq.
    { intros E. pose proof (fresh_loc w) as Hf. fold new in Hf. congruence. }
    assert (keeps_loc l
              (copy_segments sample new (se :: rest) 0 ;;;
               p <- output_path path output_dir ;;
               scale pow10 new dB ;;;
               a <- load new ;;
               wav_write p rate (map astype_int16 a))) as Hrest.
    { pose proof (keeps_loc_copy_segments_other l sample new (se :: rest) Hneq).
      frame. }
    unfold write, extract. fold (total_length (se :: rest)).
    unfold np_zeros. destruct (total_length (se :: rest) <? 0); [exact Hb|].
    match goal with |- heap (snd ?t) !! _ = _ =>
      replace t with
        ((copy_segments sample new (se :: rest) 0 ;;;
          p <- output_path path output_dir ;;
          scale pow10 new dB ;;;
          a <- load new ;;
          wav_write p rate (map astype_int16 a))
           (World (<[new := replicate (Z.to_nat (total_length (se :: rest))) (Fin 0)]>
                     (heap w)) (dirs w) (files w)))
    end.
    + rewrite Hrest. cbn [heap]. now rewrite lookup_insert_ne.
    + unfold bind, alloc, ret. fold new.
      destruct (copy_segments _ _ _ _ _) as [[e|[]] w1]; reflexivity.
Qed.



(** ** Walker: entries, count, order and iteration *)

Lemma endswith_app (t s suffix : string) :
  endswith s suffix = true -> endswith (t +:+ s) suffix = true.
Proof.
  intros H. apply endswith_suffix in H as (u & ->).
  apply endswith_suffix. exists (t +:+ u). symmetry. apply append_assoc.
Qed.

Lemma endswith_join (d name suffix : string) :
  endswith name suffix = true ->
  endswith (os_path_join d name) suffix = true.
Proof.
  intros H. unfold os_path_join.
  destruct (String.prefix "/" name); [exact H|].
  destruct (_ || _); [now apply endswith_app|].
  apply endswith_app. now apply (endswith_app "/").
Qed.

(** X11.  Every entry of a walker is a path that ends with [.wav]. *)
Theorem Walker_entries_end_with_wav (fs : string -> option node)
    (location p : string) :
  In p (Walker._recordings (Walker.init fs location)) ->
  endswith p ".wav" = true.
Proof.
  rewrite init_recordings, in_app_iff. intros [Hroot|Hwalk].
  - destruct (Walker.isfile fs location); [|destruct Hroot].
    destruct (endswith location ".wav") eqn:E; [|destruct Hroot].
    now destruct Hroot as [<-|[]].
  - unfold wav_paths in Hwalk. apply in_flat_map in Hwalk as ([[d ds] names] & _ & Hp).
    apply in_map_iff in Hp as (name & <- & Hin).
    apply filter_In in Hin as [_ Hw]. now apply endswith_join.
Qed.

Lemma wav_paths_app l1 l2 : wav_paths (l1 ++ l2) = wav_paths l1 ++ wav_paths l2.
Proof. unfold wav_paths. apply flat_map_app. Qed.

Lemma length_flat_map_sum {A B} (f : A -> list B) (g : A -> nat) (l : list A) :
  Forall (fun x => length (f x) = g x) l ->
  length (flat_map f l) = fold_right (fun x acc => (g x + acc)%nat) 0%nat l.
Proof.
  induction 1 as [|x l Hx _ IH]; [reflexivity|].
  cbn [flat_map fold_right]. now rewrite length_app, Hx, IH.
Qed.

Lemma count_wav_Dir (entries : list (string * node)) :
  count_wav (Dir entries)
  = (length (List.filter (fun f => endswith f ".wav") (filenames entries))
     + fold_right (fun e acc => count_wav (snd e) + acc) 0 entries)%nat.
Proof.
  cbn [count_wav]. f_equal.
  induction entries as [|[name child] rest IH]; [reflexivity|].
  cbn [fold_right snd]. now rewrite <- IH.
Qed.

Lemma wav_paths_walk_Dir (top : string) (entries : list (string * node)) :
  wav_paths (walk top (Dir entries))
  = map (os_path_join top)
        (List.filter (fun f => endswith f ".wav") (filenames entries))
    ++ flat_map (fun e => wav_paths (walk (os_path_join top (fst e)) (snd e)))
                entries.
Proof.
  rewrite walk_Dir. change (?x :: ?l) with ([x] ++ l).
  rewrite wav_paths_app. f_equal.
  - cbn. apply app_nil_r.
  - induction entries as [|e rest IH]; [reflexivity|].
    cbn [flat_map]. now rewrite wav_paths_app, IH.
Qed.

Lemma length_wav_paths_walk (n : node) :
  forall top, length (wav_paths (walk top n)) = count_wav n.
Proof.
  induction n as [|entries IH] using node_induction; intros top; [reflexivity|].
  rewrite wav_paths_walk_Dir, count_wav_Dir, length_app, length_map. f_equal.
  apply length_flat_map_sum.
  eapply Forall_impl; [exact IH|]. intros e He. apply He.
Qed.

(** X12.  [count] is the number of regular files of the tree under the
    root whose name ends with [.wav], plus one when the root itself is such
    a file; a root at which nothing lies gives an empty walker, not an
    exception. *)
Theorem Walker_count (fs : string -> option node) (location : string) :
  fst (Walker.count (Walker.init fs location))
  = Z.of_nat
      ((if Walker.isfile fs location && endswith location ".wav" then 1 else 0)
       + match fs location with Some n => count_wav n | None => 0 end)
  /\ (fs location = None ->
      Walker._recordings (Walker.init fs location) = []).
Proof.
  split.
  - unfold Walker.count. cbn [fst]. rewrite init_recordings, length_app. f_equal.
    f_equal.
    + now destruct (_ && _).
    + unfold Walker.os_walk. destruct (fs location) as [n|]; [|reflexivity].
      apply length_wav_paths_walk.
  - intros Hnone. rewrite init_recordings.
    unfold Walker.isfile, Walker.os_walk. now rewrite Hnone.
Qed.

(** X13.  The walk is top-down: the walker of a directory lists the wave
    files of the directory itself first, in listing order, and then, for
    each subdirectory in listing order, what the walker of that
    subdirectory lists. *)
Theorem Walker_top_down (fs : string -> option node) (location : string)
    (entries : list (string * node)) :
  fs location = Some (Dir entries) ->
  Forall (fun e => fs (os_path_join location (fst e)) = Some (snd e)) entries ->
  Walker._recordings (Walker.init fs location)
  = map (os_path_join location)
        (List.filter (fun f => endswith f ".wav") (filenames entries))
    ++ flat_map
         (fun e =>
            if is_dir (snd e)
            then Walker._recordings
                   (Walker.init fs (os_path_join location (fst e)))
            else [])
         entries.
Proof.
  intros Hfs Hsub. rewrite init_recordings.
  unfold Walker.isfile, Walker.os_walk. rewrite Hfs. cbn [andb app].
  rewrite wav_paths_walk_Dir. f_equal. clear Hfs.
  induction Hsub as [|[name child] rest He _ IH]; [reflexivity|].
  cbn [flat_map fst snd] in *. rewrite IH.
  apply (f_equal (fun x => x ++ _)).
  destruct child as [|sub]; [reflexivity|]. cbn [is_dir].
  rewrite init_recordings. unfold Walker.isfile, Walker.os_walk.
  now rewrite He.
Qed.

Lemma perform_keeps_world (c : Walker.call) (self : Walker.t) (w : world) :
  snd (Walker.perform c self w) = w.
Proof.
  destruct c as [| |pos|x]; try reflexivity.
  unfold Walker.perform, Walker.read_wave_next.
  destruct (Walker._recordings self !! pos) as [name|]; [|reflexivity].
  unfold bind, wav_read. destruct (files w !! name); reflexivity.
Qed.

(** X14.  A walker only reads: after any sequence of calls (listing,
    counting, advancing a [read_wave] generator, whether the decoding
    succeeds or raises) the arrays, the directories and the files are what
    they were. *)
Theorem Walker_read_only (cs : list Walker.call) :
  forall (self : Walker.t) (w : world),
    snd (Walker.perform_all cs self w) = w.
Proof.
  induction cs as [|c cs IH]; intros self w; [reflexivity|].
  cbn [Walker.perform_all].
  pose proof (perform_keeps_world c self w) as Hc.
  destruct (Walker.perform c self w) as [[ans self'] w']. cbn in Hc. subst w'.
  apply IH.
Qed.

(** ** Walker: the generator read_wave *)

Lemma read_wave_next_some (self : Walker.t) (pos : nat) (w : world)
    (name : string) (f : wavfile) :
  Walker._recordings self !! pos = Some name ->
  files w !! name = Some f ->
  Walker.read_wave_next self pos w
  = (inr (Some (wav_rate f, wav_data f, name), S pos, self), w).
Proof.
  intros Hn Hf. unfold Walker.read_wave_next. rewrite Hn.
  erewrite bind_inr; [reflexivity|]. unfold wav_read. now rewrite Hf.
Qed.

Lemma read_wave_next_missing (self : Walker.t) (pos : nat) (w : world)
    (name : string) :
  Walker._recordings self !! pos = Some name ->
  files w !! name = None ->
  Walker.read_wave_next self pos w = (inl IOError, w).
Proof.
  intros Hn Hf. unfold Walker.read_wave_next. rewrite Hn.
  erewrite bind_inl; [reflexivity|]. unfold wav_read. now rewrite Hf.
Qed.

Lemma read_wave_from (self : Walker.t) (w : world) :
  forall (fuel pos : nat),
    Forall (fun name => is_Some (files w !! name))
           (drop pos (Walker._recordings self)) ->
    (length (Walker._recordings self) - pos < fuel)%nat ->
    exists items,
      read_wave fuel self pos w = (inr (Some items), w)
      /\ Forall2 (fun name item =>
                    exists f, files w !! name = Some f
                              /\ item = (wav_rate f, wav_data f, name))
                 (drop pos (Walker._recordings self)) items.
Proof.
  induction fuel as [|fuel IH]; intros pos Hall Hfuel; [lia|].
  cbn [read_wave].
  destruct (Walker._recordings self !! pos) as [name|] eqn:Hn.
  - rewrite (drop_S _ _ _ Hn) in *.
    inversion Hall as [|? ? [f Hf] Hrest]; subst.
    apply lookup_lt_Some in Hn as Hlt.
    destruct (IH (S pos) Hrest ltac:(lia)) as (items & Hrun & Hitems).
    rewrite (bind_inr _ _ _ _ _ (read_wave_next_some self pos w name f Hn Hf)).
    rewrite (bind_inr _ _ _ _ _ Hrun). cbn.
    eexists. split; [reflexivity|]. constructor; [|exact Hitems].
    now exists f.
  - apply lookup_ge_None in Hn as Hge. rewrite drop_ge by exact Hge.
    erewrite bind_inr;
      [|unfold Walker.read_wave_next; rewrite Hn; reflexivity].
    exists []. split; [reflexivity | constructor].
Qed.

(** X15.  When every recording of the walker can be decoded, a loop over
    [read_wave] ends normally after yielding one item per entry, in the
    order of the list: the item for an entry carries the rate and the
    samples of its file as decoded (not normalized) and the entry itself.
    The loop changes nothing. *)
Theorem read_wave_yields_all (self : Walker.t) (w : world) (fuel : nat) :
  Forall (fun name => is_Some (files w !! name)) (Walker._recordings self) ->
  (length (Walker._recordings self) < fuel)%nat ->
  exists items,
    read_wave fuel self 0 w = (inr (Some items), w)
    /\ Z.of_nat (length items) = fst (Walker.count self)
    /\ forall (i : nat) (name : string),
         Walker._recordings self !! i = Some name ->
         exists f, files w !! name = Some f
                   /\ items !! i = Some (wav_rate f, wav_data f, name).
Proof.
  intros Hall Hfuel.
  destruct (read_wave_from self w fuel 0) as (items & Hrun & Hitems).
  { now rewrite drop_0. }
  { lia. }
  rewrite drop_0 in Hitems.
  exists items. split; [exact Hrun|]. split.
  - cbn. f_equal. symmetry. eapply Forall2_length. exact Hitems.
  - intros i name Hi.
    destruct (Forall2_lookup_l _ _ _ _ _ Hitems Hi) as (item & Hitem & f & Hf & ->).
    now exists f.
Qed.

Lemma read_wave_until (self : Walker.t) (w : world) (i : nat) (name : string) :
  Walker._recordings self !! i = Some name ->
  files w !! name = None ->
  forall (k pos fuel : nat),
    (pos + k = i)%nat ->
    (k < fuel)%nat ->
    (forall j n, (pos <= j < i)%nat -> Walker._recordings self !! j = Some n ->
                 is_Some (files w !! n)) ->
    read_wave fuel self pos w = (inl IOError, w).
Proof.
  intros Hi Hmiss. induction k as [|k IH]; intros pos fuel Hpos Hfuel Hbefore;
    (destruct fuel as [|fuel]; [lia|]); cbn [read_wave].
  - replace pos with i by lia.
    erewrite bind_inl; [reflexivity|].
    now apply read_wave_next_missing with name.
  - assert (pos < i)%nat as Hlt by lia.
    assert (is_Some (Walker._recordings self !! pos)) as [n Hn].
    { apply lookup_lt_is_Some. apply lookup_lt_Some in Hi. lia. }
    destruct (Hbefore pos n ltac:(lia) Hn) as [f Hf].
    rewrite (bind_inr _ _ _ _ _ (read_wave_next_some self pos w n f Hn Hf)).
    erewrite bind_inl; [reflexivity|].
    apply (IH (S pos) fuel); [lia | lia |].
    intros j m Hj. apply Hbefore. lia.
Qed.

(** X16.  A recording whose file is missing when the generator reaches it
    (it was there when the walker was built and is gone since) is not
    skipped: when the entries before it can be read, the loop over
    [read_wave] ends with [IOError] at that entry, whatever follows in the
    list, and nothing has been changed. *)
Theorem read_wave_aborts (self : Walker.t) (w : world) (fuel i : nat)
    (name : string) :
  Walker._recordings self !! i = Some name ->
  files w !! name = None ->
  (forall j n, (j < i)%nat -> Walker._recordings self !! j = Some n ->
               is_Some (files w !! n)) ->
  (i < fuel)%nat ->
  read_wave fuel self 0 w = (inl IOError, w).
Proof.
  intros Hi Hmiss Hbefore Hfuel.
  apply (read_wave_until self w i name Hi Hmiss i 0 fuel); [lia | exact Hfuel |].
  intros j n Hj. apply Hbefore. lia.
Qed.

(** ** read, then write *)

(** X17.  What [read] returns can be given to [write]: for a file that
    holds at least one sample, silent or not, [read] followed by [write]
    (without segments or output directory) raises nothing and writes, at
    the path it is given, a file with the rate of the file that was read
    and as many samples; no other file is touched. *)
Theorem read_then_write (pow10 : Q -> Q) (path path' : string) (dB : Q)
    (w : world) (f : wavfile) :
  files w !! path = Some f ->
  wav_data f <> [] ->
  exists (l : loc) (w1 : world) (data : list Z),
    read path w = (inr (wav_rate f, l), w1)
    /\ fst (write pow10 path' (wav_rate f) l dB "" [] w1) = inr tt
    /\ files (snd (write pow10 path' (wav_rate f) l dB "" [] w1))
       = <[path' := Wav (wav_rate f) data]> (files w)
    /\ length data = length (wav_data f).
Proof.
  intros Hf Hne.
  set (l := fresh (dom (heap w))).
  set (a := map (fun x => fdiv x (Fin (inject_Z (peakZ (wav_data f)))))
                (astype_float32 (wav_data f))).
  set (w1 := World (<[l := a]> (heap w)) (dirs w) (files w)).
  assert (heap w1 !! l = Some a) as Ha by (cbn; apply lookup_insert_eq).
  assert (length a = length (wav_data f)) as Hlen.
  { unfold a, astype_float32. now rewrite !length_map. }
  destruct (np_max a) as [peak|] eqn:Emax; cycle 1.
  { apply np_max_none in Emax. rewrite Emax in Hlen.
    destruct (wav_data f); [congruence | discriminate]. }
  exists l, w1. eexists. split; [now apply read_eval|].
  rewrite (write_eval pow10 path' (wav_rate f) l dB "" [] w1 w1 l a eq_refl Ha).
  rewrite Emax. cbn [fst snd files String.eqb]. split; [reflexivity|].
  split; [reflexivity|]. now rewrite !length_map.
Qed.

(** * The theorems at concrete inputs *)

(** [read] on a file holding 3, -4, 2: the peak is 4. *)
Lemma read_normalizes_witness :
  files w_file !! "a.wav"%string = Some (Wav 8000 [3; -4; 2])
  /\ (exists z, In z [3; -4; 2] /\ z <> 0)
  /\ exists l : loc,
       read "a.wav" w_file
       = (inr (8000, l),
          World (<[l := [Fin (3 # 4); Fin (-1); Fin (1 # 2)]]> ∅) ∅ (files w_file))
       /\ np_max (np_abs [Fin (3 # 4); Fin (-1); Fin (1 # 2)]) = Some (Fin 1).
Proof.
  assert (files w_file !! "a.wav"%string = Some (Wav 8000 [3; -4; 2])) as H1
    by (vm_compute; reflexivity).
  assert (exists z, In z (wav_data (Wav 8000 [3; -4; 2])) /\ z <> 0) as H2
    by (exists 3; split; [now left | lia]).
  split; [exact H1|]. split; [exact H2|].
  destruct (read_normalizes "a.wav" w_file (Wav 8000 [3; -4; 2]) H1 H2)
    as (l & _ & Hread & _).
  exists l. split; [exact Hread | reflexivity].
Defined.

(** The segments of the specification's example, on a buffer of length 8
    whose samples are its indices. *)
Lemma extract_concatenates_witness :
  heap w_eight !! 0%nat = Some b_eight
  /\ [(0, 3); (5, 8)] <> []
  /\ Forall (valid_segment (len b_eight)) [(0, 3); (5, 8)]
  /\ exists new_sample : loc,
       extract 0%nat [(0, 3); (5, 8)] w_eight
       = (inr new_sample,
          World (<[new_sample := astype_float32 [0; 1; 2; 5; 6; 7]]>
                   (heap w_eight)) ∅ ∅).
Proof.
  assert (heap w_eight !! 0%nat = Some b_eight) as H1
    by (vm_compute; reflexivity).
  assert ([(0, 3); (5, 8)] <> []) as H2 by discriminate.
  assert (Forall (valid_segment (len b_eight)) [(0, 3); (5, 8)]) as H3.
  { repeat constructor; vm_compute; discriminate. }
  split; [exact H1|]. split; [exact H2|]. split; [exact H3|].
  destruct (extract_concatenates w_eight 0%nat b_eight [(0, 3); (5, 8)] H1 H2 H3)
    as (l & _ & Hex & _).
  exists l. exact Hex.
Defined.


(** A silent file and a silent array. *)
Lemma silent_buffer_yields_nan_witness :
  files w_silent !! "silence.wav"%string = Some (Wav 8000 [0; 0])
  /\ [0; 0] <> []
  /\ Forall (eq 0) [0; 0]
  /\ heap w_zero !! 0%nat = Some [Fin 0; Fin 0]
  /\ [Fin 0; Fin 0] <> []
  /\ Forall (fun x => feq x (Fin 0)) [Fin 0; Fin 0]
  /\ (exists l : loc,
        read "silence.wav" w_silent
        = (inr (8000, l), World (<[l := [NaN; NaN]]> ∅) ∅ (files w_silent)))
  /\ scale pow10_int 0%nat 30 w_zero
     = (inr tt, World (<[0%nat := [NaN; NaN]]> (heap w_zero)) ∅ ∅).
Proof.
  assert (files w_silent !! "silence.wav"%string = Some (Wav 8000 [0; 0])) as H1
    by (vm_compute; reflexivity).
  assert (wav_data (Wav 8000 [0; 0]) <> []) as H2 by discriminate.
  assert (Forall (eq 0) (wav_data (Wav 8000 [0; 0]))) as H3
    by (repeat constructor).
  assert (heap w_zero !! 0%nat = Some [Fin 0; Fin 0]) as H4
    by (vm_compute; reflexivity).
  assert ([Fin 0; Fin 0] <> []) as H5 by discriminate.
  assert (Forall (fun x => feq x (Fin 0)) [Fin 0; Fin 0]) as H6
    by (repeat constructor).
  repeat (split; [assumption|]).
  destruct (silent_buffer_yields_nan pow10_int w_silent) as (Hread & _).
  destruct (silent_buffer_yields_nan pow10_int w_zero) as (_ & Hscale & _).
  split.
  - destruct (Hread "silence.wav"%string (Wav 8000 [0; 0]) H1 H2 H3)
      as (l & _ & E).
    exists l. exact E.
  - destruct (Hscale 0%nat [Fin 0; Fin 0] 30%Q H4 H5 H6) as [E _]. exact E.
Defined.

(** The three malformed segments of the specification, on a buffer of
    length 3. *)
Lemma write_malformed_segments_witness :
  heap w_three !! 0%nat = Some b_three
  /\ 3 < 5
  /\ (len b_three = 0 \/ 3 <= len b_three)
  /\ len b_three <> 1
  /\ write pow10_int "out.wav" 8000 0%nat 30 "" [(5, 3)] w_three
     = (inl ValueError, w_three)
  /\ fst (write pow10_int "out.wav" 8000 0%nat 30 "" [(-1, 2)] w_three)
     = inl ValueError
  /\ fst (write pow10_int "out.wav" 8000 0%nat 30 "" [(0, 4)] w_three)
     = inl ValueError
  /\ files (snd (write pow10_int "out.wav" 8000 0%nat 30 "" [(0, 4)] w_three))
     = ∅.
Proof.
  assert (heap w_three !! 0%nat = Some b_three) as H1
    by (vm_compute; reflexivity).
  assert (3 < 5) as H2 by lia.
  assert (len b_three = 0 \/ 3 <= len b_three) as H3
    by (right; vm_compute; discriminate).
  assert (len b_three <> 1) as H4 by (vm_compute; discriminate).
  repeat (split; [assumption|]).
  destruct (write_malformed_segments pow10_int "out.wav" 8000 0%nat 30 ""
              w_three b_three H1)
    as (_ & _ & _ & Hlt & _ & Hneg & Hend).
  split; [exact (Hlt 5 3 H2)|].
  destruct (Hneg H3) as (E1 & _). split; [exact E1|].
  destruct (Hend H4) as (E2 & _ & E3). split; [exact E2 | exact E3].
Defined.

(** A successful [write], at 50 dB. *)
Lemma write_quantizes_witness :
  write pow10_int "out.wav" 8000 0%nat 50 "" [] w_two
  = (inr tt, snd (write pow10_int "out.wav" 8000 0%nat 50 "" [] w_two))
  /\ exists (a0 : list float) (peak : float),
       np_max a0 = Some peak
       /\ heap w_two !! 0%nat = Some a0
       /\ files (snd (write pow10_int "out.wav" 8000 0%nat 50 "" [] w_two))
            !! "out.wav"%string
          = Some (Wav 8000
                    (map astype_int16
                       (map (fun x => fmul x (fdiv (Fin (pow10_int (50 / 10))) peak))
                            a0))).
Proof.
  assert (write pow10_int "out.wav" 8000 0%nat 50 "" [] w_two
          = (inr tt, snd (write pow10_int "out.wav" 8000 0%nat 50 "" [] w_two)))
    as H1 by (vm_compute; reflexivity).
  split; [exact H1|].
  destruct (write_quantizes pow10_int "out.wav" 8000 0%nat 50 "" [] w_two)
    as (Hw & _).
  destruct (Hw _ H1) as (p & l & a0 & peak & Hmax & _ & Hfile & Hseg & Hdir).
  destruct (Hseg eq_refl) as [_ Ha0]. rewrite (Hdir eq_refl) in Hfile.
  exists a0, peak. split; [exact Hmax|]. split; [exact Ha0 | exact Hfile].
Defined.

(** The walker of the specification's directory, and of a single file. *)
Lemma Walker_init_entries_witness :
  example_fs "one.wav" = Some File
  /\ In "rec/sub/b.wav"%string (Walker._recordings (Walker.init example_fs "rec"))
  /\ Walker._recordings (Walker.init example_fs "one.wav") = ["one.wav"%string]
  /\ Walker._recordings (Walker.init example_fs "notes.txt") = [].
Proof.
  assert (example_fs "one.wav" = Some File) as H1 by reflexivity.
  assert (example_fs "notes.txt" = Some File) as H2 by reflexivity.
  split; [exact H1|].
  destruct (Walker_init_entries example_fs "rec") as (Hin & _).
  destruct (Walker_init_entries example_fs "one.wav") as (_ & Hone & _).
  destruct (Walker_init_entries example_fs "notes.txt") as (_ & Hnotes & _).
  split; [|split; [exact (Hone H1) | exact (Hnotes H2)]].
  apply Hin. right.
  exists example_tree, "rec/sub"%string, "b.wav"%string.
  split; [reflexivity|]. split; [|split; reflexivity].
  apply file_below with "sub"%string (Dir [("b.wav"%string, File); ("d.WAV"%string, File)]).
  - right. now left.
  - apply (file_here "rec/sub" _ "b.wav"). now left.
Defined.

(** A walker with one entry, after a listing, a step of the generator and
    a count. *)
Lemma Walker_list_stable_witness :
  forallb Walker.is_method
    [Walker.CallList; Walker.CallNext 0; Walker.CallCount] = true
  /\ fst (Walker.perform_all
            [Walker.CallList; Walker.CallNext 0; Walker.CallCount]
            walker_one w_file)
     = walker_one
  /\ fst (Walker.count walker_one) = 1.
Proof.
  assert (forallb Walker.is_method
            [Walker.CallList; Walker.CallNext 0; Walker.CallCount] = true)
    as H1 by reflexivity.
  split; [exact H1|].
  destruct (Walker_list_stable walker_one
              [Walker.CallList; Walker.CallNext 0; Walker.CallCount] w_file)
    as (Hm & _ & _ & Hc & _).
  destruct (Hm H1) as [Hs _].
  split; [exact Hs|]. rewrite Hs in Hc. exact Hc.
Defined.

(** * The further properties at concrete inputs *)

Lemma read_outcome_witness :
  files w_file !! "b.wav"%string = None
  /\ files w_file !! "a.wav"%string = Some (Wav 8000 [3; -4; 2])
  /\ [3; -4; 2] <> []
  /\ read "b.wav" w_file = (inl IOError, w_file)
  /\ exists l : loc, fst (read "a.wav" w_file) = inr (8000, l).
Proof.
  assert (files w_file !! "b.wav"%string = None) as H1
    by (vm_compute; reflexivity).
  assert (files w_file !! "a.wav"%string = Some (Wav 8000 [3; -4; 2])) as H2
    by (vm_compute; reflexivity).
  assert (wav_data (Wav 8000 [3; -4; 2]) <> []) as H3 by discriminate.
  split; [exact H1|]. split; [exact H2|]. split; [exact H3|].
  destruct (read_outcome "b.wav" w_file) as (Hmiss & _).
  destruct (read_outcome "a.wav" w_file) as (_ & Hsome).
  split; [exact (Hmiss H1)|].
  destruct (Hsome _ H2) as (_ & _ & Hret).
  destruct (Hret H3) as (l & Hl & _). now exists l.
Defined.

(** [read] on a file holding 3, -4, 2: the second sample, of largest
    magnitude and negative, becomes -1. *)
Lemma read_range_witness :
  files w_file !! "a.wav"%string = Some (Wav 8000 [3; -4; 2])
  /\ (exists z, In z [3; -4; 2] /\ z <> 0)
  /\ [3; -4; 2] !! 1%nat = Some (-4)
  /\ -4 < 0
  /\ Z.abs (-4) = peakZ [3; -4; 2]
  /\ exists (l : loc) (a : list float) (q : Q),
       fst (read "a.wav" w_file) = inr (8000, l)
       /\ heap (snd (read "a.wav" w_file)) !! l = Some a
       /\ length a = 3%nat
       /\ a !! 1%nat = Some (Fin q)
       /\ (q < 0)%Q /\ (Qabs q == 1)%Q.
Proof.
  assert (files w_file !! "a.wav"%string = Some (Wav 8000 [3; -4; 2])) as H1
    by (vm_compute; reflexivity).
  assert (exists z, In z (wav_data (Wav 8000 [3; -4; 2])) /\ z <> 0) as H2
    by (exists 3; split; [now left | lia]).
  assert (wav_data (Wav 8000 [3; -4; 2]) !! 1%nat = Some (-4)) as H3
    by reflexivity.
  assert (-4 < 0) as H4 by lia.
  assert (Z.abs (-4) = peakZ (wav_data (Wav 8000 [3; -4; 2]))) as H5
    by reflexivity.
  repeat (split; [assumption|]).
  destruct (read_range "a.wav" w_file (Wav 8000 [3; -4; 2]) H1 H2)
    as (l & a & Hr & _ & Ha & Hlen & Hval & _).
  destruct (Hval 1%nat (-4) H3) as (q & Hq & _ & _ & _ & Hneg & _ & Hpeak).
  exists l, a, q. split; [exact Hr|]. split; [exact Ha|]. split; [exact Hlen|].
  split; [exact Hq|]. split; [exact (Hneg H4) | exact (Hpeak H5)].
Defined.

Lemma write_writes_one_file_witness :
  write pow10_int "in/x.wav" 8000 0%nat 30 "out" [(0, 2); (1, 3)] w_three
  = (inr tt,
     snd (write pow10_int "in/x.wav" 8000 0%nat 30 "out" [(0, 2); (1, 3)] w_three))
  /\ exists data : list Z,
       files (snd (write pow10_int "in/x.wav" 8000 0%nat 30 "out"
                     [(0, 2); (1, 3)] w_three))
       = <["out/x.wav"%string := Wav 8000 data]> ∅
       /\ len data = 4.
Proof.
  assert (write pow10_int "in/x.wav" 8000 0%nat 30 "out" [(0, 2); (1, 3)] w_three
          = (inr tt,
             snd (write pow10_int "in/x.wav" 8000 0%nat 30 "out"
                    [(0, 2); (1, 3)] w_three))) as H1
    by (vm_compute; reflexivity).
  split; [exact H1|].
  destruct (write_writes_one_file _ _ _ _ _ _ _ _ _ H1)
    as (data & Hf & _ & _ & Hlen).
  exists data. split; [exact Hf|]. apply Hlen. discriminate.
Defined.

Lemma write_empty_buffer_witness :
  heap w_empty !! 0%nat = Some []
  /\ heap w_three !! 0%nat = Some b_three
  /\ [(1, 1)] <> []
  /\ Forall (valid_segment (len b_three)) [(1, 1)]
  /\ total_length [(1, 1)] = 0
  /\ "out"%string <> ""%string
  /\ fst (write pow10_int "x.wav" 8000 0%nat 30 "" [] w_empty)
     = inl ValueError
  /\ fst (write pow10_int "x.wav" 8000 0%nat 30 "out" [(1, 1)] w_three)
     = inl ValueError
  /\ fst (os_path_exists "out"
            (snd (write pow10_int "x.wav" 8000 0%nat 30 "out" [(1, 1)] w_three)))
     = inr true.
Proof.
  assert (heap w_empty !! 0%nat = Some []) as H1 by (vm_compute; reflexivity).
  assert (heap w_three !! 0%nat = Some b_three) as H2
    by (vm_compute; reflexivity).
  assert ([(1, 1)] <> [] :> list (Z * Z)) as H3 by discriminate.
  assert (Forall (valid_segment (len b_three)) [(1, 1)]) as H4.
  { repeat constructor; vm_compute; discriminate. }
  assert (total_length [(1, 1)] = 0) as H5 by reflexivity.
  assert ("out"%string <> ""%string) as H6 by discriminate.
  do 6 (split; [assumption|]).
  assert (fst (write pow10_int "x.wav" 8000 0%nat 30 "out" [(1, 1)] w_three)
          = inl ValueError) as H7 by (vm_compute; reflexivity).
  destruct (write_empty_buffer pow10_int "x.wav" 8000 0%nat 30 "" w_empty [] H1)
    as (_ & _ & Hraise1).
  destruct (write_empty_buffer pow10_int "x.wav" 8000 0%nat 30 "out" w_three
              b_three H2) as (_ & _ & Hraise2).
  destruct (Hraise1 [] (or_introl (conj eq_refl eq_refl))) as (_ & _ & E1 & _).
  destruct (Hraise2 [(1, 1)] (or_intror (conj H3 (conj H4 H5))))
    as (_ & _ & _ & E3).
  split; [exact (proj1 (E1 eq_refl))|]. split; [exact H7 | exact (E3 H7 H6)].
Defined.

Lemma output_dir_created_witness :
  "out"%string <> ""%string
  /\ fst (os_path_exists "out" w_two) = inr false
  /\ dirs (snd (output_path "in/x.wav" "out" w_two)) = {[ "out"%string ]} ∪ ∅
  /\ fst (output_path "in/x.wav" "out" w_two) = inr "out/x.wav"%string.
Proof.
  assert ("out"%string <> ""%string) as H1 by discriminate.
  assert (fst (os_path_exists "out" w_two) = inr false) as H2
    by (vm_compute; reflexivity).
  split; [exact H1|]. split; [exact H2|].
  destruct (output_dir_created "in/x.wav" "in/x.wav" "out" w_two H1)
    as (Hp & _ & _ & _ & _ & Hnew & _).
  split; [exact (Hnew H2) | exact Hp].
Defined.

Lemma extract_broadcasts_witness :
  heap w_two !! 0%nat = Some [Fin 1; Fin (1 # 2)]
  /\ -1 <= 2
  /\ getslice [Fin 1; Fin (1 # 2)] (-1) 2 = [Fin (1 # 2)]
  /\ extract 0%nat [(-1, 2)] w_two
     = (inr (fresh (dom (heap w_two))),
        World (<[fresh (dom (heap w_two)) :=
                  [Fin (1 # 2); Fin (1 # 2); Fin (1 # 2)]]> (heap w_two)) ∅ ∅).
Proof.
  assert (heap w_two !! 0%nat = Some [Fin 1; Fin (1 # 2)]) as H1
    by (vm_compute; reflexivity).
  assert (-1 <= 2) as H2 by lia.
  assert (getslice [Fin 1; Fin (1 # 2)] (-1) 2 = [Fin (1 # 2)]) as H3
    by reflexivity.
  repeat (split; [assumption|]).
  exact (extract_broadcasts w_two 0%nat _ (-1) 2 _ H1 H2 H3).
Defined.

Lemma write_heap_frame_witness :
  heap w_two !! 0%nat = Some [Fin 1; Fin (1 # 2)]
  /\ (0%nat <> 0%nat \/ [(0, 1)] <> [])
  /\ heap (snd (write pow10_int "x.wav" 8000 0%nat 30 "" [(0, 1)] w_two)) !! 0%nat
     = Some [Fin 1; Fin (1 # 2)].
Proof.
  assert (heap w_two !! 0%nat = Some [Fin 1; Fin (1 # 2)]) as H1
    by (vm_compute; reflexivity).
  assert (0%nat <> 0%nat \/ [(0, 1)] <> [] :> list (Z * Z)) as H2
    by (right; discriminate).
  split; [exact H1|]. split; [exact H2|].
  exact (write_heap_frame pow10_int "x.wav" 8000 0%nat 30 "" [(0, 1)] w_two
           0%nat _ H1 H2).
Defined.


Lemma output_name_is_basename_witness :
  "out"%string <> ""%string
  /\ endswith "out" "/" = false
  /\ fst (output_path "in/deep/x.wav" "out" w_two) = inr "out/x.wav"%string
  /\ os_path_basename "in/deep/x.wav" = "x.wav"%string.
Proof.
  assert ("out"%string <> ""%string) as H1 by discriminate.
  assert (endswith "out" "/" = false) as H2 by reflexivity.
  split; [exact H1|]. split; [exact H2|].
  destruct (output_name_is_basename "out" "in/deep/x.wav" w_two)
    as (_ & _ & Hout).
  destruct (Hout H1) as (Hp & _ & Hjoin & _).
  split; [exact Hp | reflexivity].
Defined.

Lemma Walker_entries_end_with_wav_witness :
  In "rec/sub/b.wav"%string (Walker._recordings (Walker.init example_fs "rec"))
  /\ endswith "rec/sub/b.wav" ".wav" = true.
Proof.
  assert (In "rec/sub/b.wav"%string
            (Walker._recordings (Walker.init example_fs "rec"))) as H1
    by (right; left; reflexivity).
  split; [exact H1|].
  exact (Walker_entries_end_with_wav example_fs "rec" _ H1).
Defined.

Lemma Walker_top_down_witness :
  example_fs_deep "rec"
  = Some (Dir [("a.wav"%string, File);
               ("sub"%string, Dir [("b.wav"%string, File); ("d.WAV"%string, File)]);
               ("c.txt"%string, File)])
  /\ Walker._recordings (Walker.init example_fs_deep "rec")
     = ["rec/a.wav"%string]
       ++ Walker._recordings (Walker.init example_fs_deep "rec/sub").
Proof.
  assert (example_fs_deep "rec"
          = Some (Dir [("a.wav"%string, File);
                       ("sub"%string,
                        Dir [("b.wav"%string, File); ("d.WAV"%string, File)]);
                       ("c.txt"%string, File)])) as H1 by reflexivity.
  split; [exact H1|].
  rewrite (Walker_top_down example_fs_deep "rec" _ H1).
  - cbn [flat_map is_dir snd fst]. now rewrite !app_nil_r.
  - repeat constructor.
Defined.

Lemma read_wave_yields_all_witness :
  Forall (fun name => is_Some (files w_recordings !! name))
         (Walker._recordings (Walker.init example_fs "rec"))
  /\ (length (Walker._recordings (Walker.init example_fs "rec")) < 3)%nat
  /\ exists items,
       read_wave 3 (Walker.init example_fs "rec") 0 w_recordings
       = (inr (Some items), w_recordings)
       /\ items !! 1%nat = Some (44100, [0; 7], "rec/sub/b.wav"%string).
Proof.
  assert (Forall (fun name => is_Some (files w_recordings !! name))
            (Walker._recordings (Walker.init example_fs "rec"))) as H1.
  { repeat constructor; vm_compute; eexists; reflexivity. }
  assert (length (Walker._recordings (Walker.init example_fs "rec")) < 3)%nat
    as H2 by (vm_compute; lia).
  split; [exact H1|]. split; [exact H2|].
  destruct (read_wave_yields_all (Walker.init example_fs "rec") w_recordings 3 H1 H2)
    as (items & Hrun & _ & Hitems).
  exists items. split; [exact Hrun|].
  destruct (Hitems 1%nat "rec/sub/b.wav"%string eq_refl) as (f & Hf & Hi).
  vm_compute in Hf. injection Hf as <-. exact Hi.
Defined.

Lemma read_wave_aborts_witness :
  Walker._recordings (Walker.Make ["a.wav"; "b.wav"; "c.wav"]%string) !! 1%nat
  = Some "b.wav"%string
  /\ files w_file !! "b.wav"%string = None
  /\ (1 < 2)%nat
  /\ read_wave 2 (Walker.Make ["a.wav"; "b.wav"; "c.wav"]%string) 0 w_file
     = (inl IOError, w_file).
Proof.
  assert (Walker._recordings (Walker.Make ["a.wav"; "b.wav"; "c.wav"]%string)
            !! 1%nat = Some "b.wav"%string) as H1 by reflexivity.
  assert (files w_file !! "b.wav"%string = None) as H2
    by (vm_compute; reflexivity).
  assert (1 < 2)%nat as H3 by lia.
  repeat (split; [assumption|]).
  apply (read_wave_aborts _ w_file 2 1 "b.wav" H1 H2); [|exact H3].
  intros j n Hj Hn. destruct j as [|j]; [|lia].
  injection Hn as <-. vm_compute. eexists. reflexivity.
Defined.

Lemma read_then_write_witness :
  files w_silent !! "silence.wav"%string = Some (Wav 8000 [0; 0])
  /\ [0; 0] <> []
  /\ exists (l : loc) (w1 : world) (data : list Z),
       read "silence.wav" w_silent = (inr (8000, l), w1)
       /\ fst (write pow10_int "copy.wav" 8000 l 30 "" [] w1) = inr tt
       /\ length data = 2%nat.
Proof.
  assert (files w_silent !! "silence.wav"%string = Some (Wav 8000 [0; 0])) as H1
    by (vm_compute; reflexivity).
  assert (wav_data (Wav 8000 [0; 0]) <> []) as H2 by discriminate.
  split; [exact H1|]. split; [exact H2|].
  destruct (read_then_write pow10_int "silence.wav" "copy.wav" 30 w_silent
              (Wav 8000 [0; 0]) H1 H2)
    as (l & w1 & data & Hr & Hw & _ & Hlen).
  exists l, w1, data. split; [exact Hr|]. split; [exact Hw | exact Hlen].
Defined.
